(** * The C binding layer over the simdjson engine

    A shallow embedding of [src/vendor/simdjson-wrapper.cpp] and
    [src/vendor/simdjson-wrapper.h].

    The wrapper is a set of [extern "C"] functions that guard their pointer
    arguments, call one method of the engine inside [try { ... } catch (...)]
    and turn the outcome into an [int] status or a handle.  The embedding
    keeps that shape:

    - pointers and handles ([void*], [const char*], [T*]) are addresses in [N],
      [nullptr] is [0];
    - objects made by [new] live in a heap indexed by address; the caller's
      bytes and the caller's output locations are two more stores;
    - a function is a computation [world -> outcome]: it returns normally,
      leaves by a C++ exception, or has no defined behaviour (a handle that is
      not live);
    - the engine ([simdjson/simdjson.h]) is an interface: every method the
      wrapper calls is a field of the class [Engine], and a method may return a
      [simdjson_result] or raise;
    - each engine call is recorded in the world, so that "the engine was or was
      not invoked, and on which range" can be stated. *)

From stdpp Require Import gmap strings list fin_maps.
From Stdlib Require Import ZArith Ascii String.

Local Open Scope N_scope.

(** ** Data of the header *)

(** [typedef struct { const char* data; size_t len; } simdjson_string;] *)
Record simdjson_string := { data : N; len : N }.

(** [typedef void* simdjson_parser_t;] and its two siblings. *)
Definition simdjson_parser_t := N.
Definition simdjson_document_t := N.
Definition simdjson_element_t := N.

Definition nullptr : N := 0.

(** [!p] on a pointer. *)
Definition is_null (p : N) : bool := p =? 0.

(** ** What the wrapper sees of the engine *)

(** [std::string_view]: [sv.data()] and [sv.length()]. *)
Record string_view := { sv_data : N; sv_length : N }.

(** [simdjson_result<T>]: an error code next to a value; [value_unsafe()]
    reads the value whatever the code is. *)
Record simdjson_result (T : Type) := { error : Z; value_unsafe : T }.
Arguments error {T} _.
Arguments value_unsafe {T} _.

(** [if (r.error())]: an [error_code] is true when it is not [SUCCESS = 0]. *)
Definition is_error (e : Z) : bool := negb (e =? 0)%Z.

(** [ondemand::json_type]. *)
Module json_type.
Inductive t := array | object | number | string | boolean | null.

Definition eqb (a b : t) : bool :=
  match a, b with
  | array, array | object, object | number, number
  | string, string | boolean, boolean | null, null => true
  | _, _ => false
  end.
End json_type.

(** A call into the engine either returns or raises a C++ exception. *)
Inductive raised (A : Type) :=
| returns (a : A)
| raises.
Arguments returns {A} a.
Arguments raises {A}.

(** The caller's bytes, read by the engine; an address that holds nothing
    reads as NUL. *)
Abbreviation memory := (gmap N ascii).

(** The engine as the wrapper uses it.  Methods take the object they are
    called on and the caller's bytes, and give back the object's new state:
    [parse_into_document] and the accessors are not [const].  A value is
    self-contained here: what a value of the real engine shares with the
    parser it was read from is inside the engine, and no statement below is
    about it. *)
Class Engine := {
  ondemand_parser : Type;
  ondemand_document_stream : Type;
  ondemand_document : Type;
  ondemand_value : Type;
  double : Type;
  (** default constructors *)
  ondemand_parser_default : ondemand_parser;
  ondemand_document_stream_default : ondemand_document_stream;
  ondemand_value_default : ondemand_value;
  (** [parser.parse_into_document(json, len)] *)
  parse_into_document :
    ondemand_parser → memory → N → N →
    raised (simdjson_result ondemand_document) * ondemand_parser;
  (** the conversion in [elem_impl->value = doc_result.value_unsafe()]; it
      runs inside the [try] like every other engine operation, and may raise *)
  document_to_value : ondemand_document → raised ondemand_value;
  (** [value.get_string()] and the other accessors *)
  get_string :
    ondemand_value → memory → raised (simdjson_result string_view) * ondemand_value;
  get_int64 :
    ondemand_value → memory → raised (simdjson_result Z) * ondemand_value;
  get_uint64 :
    ondemand_value → memory → raised (simdjson_result Z) * ondemand_value;
  get_double :
    ondemand_value → memory → raised (simdjson_result double) * ondemand_value;
  get_bool :
    ondemand_value → memory → raised (simdjson_result bool) * ondemand_value;
  (** [value.type()] *)
  type :
    ondemand_value → memory → raised (simdjson_result json_type.t) * ondemand_value;
}.

(** Which parser object a call of [parse_into_document] ran on. *)
Inductive parser_ctx :=
| ctx_handle (p : simdjson_parser_t)   (* [parser->parser] of a Parser handle *)
| ctx_local.                           (* a parser declared in the calling function *)

(** The engine calls the wrapper makes. *)
Inductive engine_call :=
| called_parse_into_document (ctx : parser_ctx) (json : N) (len : N)
| called_get_string (elem : simdjson_element_t)
| called_get_int64 (elem : simdjson_element_t)
| called_get_uint64 (elem : simdjson_element_t)
| called_get_double (elem : simdjson_element_t)
| called_get_bool (elem : simdjson_element_t)
| called_type (elem : simdjson_element_t).

Section Wrapper.
Context {E : Engine}.

(** ** The three opaque types *)

Record SimdJsonParserImpl := { parser : ondemand_parser }.

Record SimdJsonDocumentImpl := {
  stream : ondemand_document_stream;
  json_data : N;
  json_len : N;
}.

Record SimdJsonElementImpl := { value : ondemand_value }.

(** What [new] made. *)
Inductive object :=
| OParser (p : SimdJsonParserImpl)
| ODocument (d : SimdJsonDocumentImpl)
| OElement (e : SimdJsonElementImpl).

(** What an output location of the caller holds once written. *)
Inductive cell :=
| cell_document (h : simdjson_document_t)   (* [simdjson_document_t*] *)
| cell_string (s : simdjson_string)         (* [simdjson_string*] *)
| cell_int64 (v : Z)                        (* [int64_t*] *)
| cell_uint64 (v : Z)                       (* [uint64_t*] *)
| cell_double (v : double)                  (* [double*] *)
| cell_int (v : Z).                         (* [int*] *)

(** ** The world a call runs in

    The caller's input buffers and the caller's output locations are separate
    objects of the caller: an output pointer that points into an input buffer
    is not modelled. *)

Record world := {
  heap : gmap N object;    (* objects made by [new], not yet deleted *)
  avail : nat;             (* how many more [new] the allocator will satisfy *)
  bytes : memory;          (* the caller's buffers *)
  out : gmap N cell;       (* the caller's output locations *)
  calls : list engine_call (* engine calls made so far, oldest first *)
}.

Definition with_heap (h : gmap N object) (w : world) : world :=
  {| heap := h; avail := avail w; bytes := bytes w; out := out w; calls := calls w |}.

Definition with_avail (n : nat) (w : world) : world :=
  {| heap := heap w; avail := n; bytes := bytes w; out := out w; calls := calls w |}.

Definition with_out (o : gmap N cell) (w : world) : world :=
  {| heap := heap w; avail := avail w; bytes := bytes w; out := o; calls := calls w |}.

Definition with_call (c : engine_call) (w : world) : world :=
  {| heap := heap w; avail := avail w; bytes := bytes w; out := out w;
     calls := calls w ++ [c] |}.

(** ** Computations *)

Inductive outcome (A : Type) :=
| Normal (a : A) (w : world)   (* [return a;] *)
| Thrown (w : world)           (* left by an exception *)
| Undefined.                   (* a handle that is neither null nor live *)
Arguments Normal {A} a w.
Arguments Thrown {A} w.
Arguments Undefined {A}.

Definition M (A : Type) : Type := world → outcome A.

#[export] Instance M_ret : MRet M := λ A a w, Normal a w.

#[export] Instance M_bind : MBind M := λ A B k m w,
  match m w with
  | Normal a w' => k a w'
  | Thrown w' => Thrown w'
  | Undefined => Undefined
  end.

(** [try { body } catch (...) { handler }]: what the body did to the world
    before it threw stays done. *)
Definition try_catch {A} (body handler : M A) : M A := λ w,
  match body w with
  | Thrown w' => handler w'
  | r => r
  end.

(** [new T(...)]: a fresh non-null address, or [std::bad_alloc]. *)
Definition new (o : object) : M N := λ w,
  match avail w with
  | O => Thrown w
  | S n =>
      let a := fresh ({[nullptr]} ∪ dom (heap w)) in
      Normal a (with_avail n (with_heap (<[a:=o]> (heap w)) w))
  end.

(** [delete p]. *)
Definition delete (is_kind : object → bool) (p : N) : M unit := λ w,
  match heap w !! p with
  | Some o => if is_kind o then Normal tt (with_heap (base.delete p (heap w)) w)
              else Undefined
  | None => Undefined
  end.

(** [*p = c] on an output location. *)
Definition store (p : N) (c : cell) : M unit := λ w,
  Normal tt (with_out (<[p:=c]> (out w)) w).

(** [static_cast<SimdJsonDocumentImpl*>(doc_ptr)] followed by reads of its
    fields. *)
Definition deref_document (doc_ptr : N) : M SimdJsonDocumentImpl := λ w,
  match heap w !! doc_ptr with
  | Some (ODocument d) => Normal d w
  | _ => Undefined
  end.

(** [doc_impl->json_data = json;] *)
Definition set_json_data (doc_impl : N) (json : N) : M unit := λ w,
  match heap w !! doc_impl with
  | Some (ODocument d) =>
      Normal tt (with_heap (<[doc_impl :=
        ODocument {| stream := stream d; json_data := json; json_len := json_len d |}]>
        (heap w)) w)
  | _ => Undefined
  end.

(** [doc_impl->json_len = len;] *)
Definition set_json_len (doc_impl : N) (n : N) : M unit := λ w,
  match heap w !! doc_impl with
  | Some (ODocument d) =>
      Normal tt (with_heap (<[doc_impl :=
        ODocument {| stream := stream d; json_data := json_data d; json_len := n |}]>
        (heap w)) w)
  | _ => Undefined
  end.

(** [elem_impl->value = v;] *)
Definition set_value (elem_impl : N) (v : ondemand_value) : M unit := λ w,
  match heap w !! elem_impl with
  | Some (OElement _) =>
      Normal tt (with_heap (<[elem_impl := OElement {| value := v |}]> (heap w)) w)
  | _ => Undefined
  end.

(** The right-hand side of [elem_impl->value = doc_result.value_unsafe()]:
    the document converted into the value the Element will hold.  It leaves by
    an exception when the engine raises; being a conversion and not a named
    method call, it adds no entry to the log. *)
Definition convert_document (d : ondemand_document) : M ondemand_value := λ w,
  match document_to_value d with
  | returns v => Normal v w
  | raises => Thrown w
  end.

(** [parser->parser.parse_into_document(json, len)] on a Parser handle: the
    parser object keeps the state the call leaves it in. *)
Definition handle_parse_into_document (parser_ptr json n : N)
  : M (simdjson_result ondemand_document) := λ w,
  match heap w !! parser_ptr with
  | Some (OParser impl) =>
      let '(r, p') := parse_into_document (parser impl) (bytes w) json n in
      let w' :=
        with_call (called_parse_into_document (ctx_handle parser_ptr) json n)
          (with_heap (<[parser_ptr := OParser {| parser := p' |}]> (heap w)) w) in
      match r with
      | returns res => Normal res w'
      | raises => Thrown w'
      end
  | _ => Undefined
  end.

(** [ondemand::parser parser; parser.parse_into_document(json, len)]: the
    parser is a local of the calling function and is gone when it returns. *)
Definition local_parse_into_document (json n : N)
  : M (simdjson_result ondemand_document) := λ w,
  let w' := with_call (called_parse_into_document ctx_local json n) w in
  match fst (parse_into_document ondemand_parser_default (bytes w) json n) with
  | returns res => Normal res w'
  | raises => Thrown w'
  end.

(** [elem->value.method()]: one accessor of the element's value. *)
Definition value_method {T} (elem_ptr : N) (c : engine_call)
    (method : ondemand_value → memory → raised (simdjson_result T) * ondemand_value)
  : M (simdjson_result T) := λ w,
  match heap w !! elem_ptr with
  | Some (OElement impl) =>
      let '(r, v') := method (value impl) (bytes w) in
      let w' := with_call c (with_heap (<[elem_ptr := OElement {| value := v' |}]> (heap w)) w) in
      match r with
      | returns res => Normal res w'
      | raises => Thrown w'
      end
  | _ => Undefined
  end.

Definition is_parser (o : object) : bool :=
  match o with OParser _ => true | _ => false end.
Definition is_document (o : object) : bool :=
  match o with ODocument _ => true | _ => false end.
Definition is_element (o : object) : bool :=
  match o with OElement _ => true | _ => false end.

(** ** The functions of the wrapper *)

Definition simdjson_create_parser : M simdjson_parser_t :=
  try_catch
    (impl ← new (OParser {| parser := ondemand_parser_default |});
     mret impl)
    (mret nullptr).

Definition simdjson_free_parser (parser : simdjson_parser_t) : M unit :=
  if is_null parser then mret tt else delete is_parser parser.

Definition simdjson_parse (parser_ptr : simdjson_parser_t) (json : N) (len : N)
    (out_doc : N) : M Z :=
  if is_null parser_ptr || is_null json || is_null out_doc then mret (-1)%Z
  else
    try_catch
      (doc_result ← handle_parse_into_document parser_ptr json len;
       if is_error (error doc_result) then mret (error doc_result)
       else
         doc_impl ← new (ODocument {| stream := ondemand_document_stream_default;
                                      json_data := 0; json_len := 0 |});
         set_json_data doc_impl json;;
         set_json_len doc_impl len;;
         store out_doc (cell_document doc_impl);;
         mret 0%Z)
      (mret (-1)%Z).

Definition simdjson_free_document (doc : simdjson_document_t) : M unit :=
  if is_null doc then mret tt else delete is_document doc.

Definition simdjson_document_root (doc_ptr : simdjson_document_t)
  : M simdjson_element_t :=
  if is_null doc_ptr then mret nullptr
  else
    try_catch
      (doc ← deref_document doc_ptr;
       doc_result ← local_parse_into_document (json_data doc) (json_len doc);
       if is_error (error doc_result) then mret nullptr
       else
         elem_impl ← new (OElement {| value := ondemand_value_default |});
         root ← convert_document (value_unsafe doc_result);
         set_value elem_impl root;;
         mret elem_impl)
      (mret nullptr).

Definition simdjson_free_element (elem : simdjson_element_t) : M unit :=
  if is_null elem then mret tt else delete is_element elem.

Definition simdjson_element_get_string (elem_ptr : simdjson_element_t)
    (out_str : N) : M Z :=
  if is_null elem_ptr || is_null out_str then mret (-1)%Z
  else
    try_catch
      (str_result ← value_method elem_ptr (called_get_string elem_ptr) get_string;
       if is_error (error str_result) then mret (error str_result)
       else
         let sv := value_unsafe str_result in
         store out_str (cell_string {| data := sv_data sv; len := sv_length sv |});;
         mret 0%Z)
      (mret (-1)%Z).

Definition simdjson_element_get_int64 (elem_ptr : simdjson_element_t)
    (out_val : N) : M Z :=
  if is_null elem_ptr || is_null out_val then mret (-1)%Z
  else
    try_catch
      (int_result ← value_method elem_ptr (called_get_int64 elem_ptr) get_int64;
       if is_error (error int_result) then mret (error int_result)
       else
         store out_val (cell_int64 (value_unsafe int_result));;
         mret 0%Z)
      (mret (-1)%Z).

Definition simdjson_element_get_uint64 (elem_ptr : simdjson_element_t)
    (out_val : N) : M Z :=
  if is_null elem_ptr || is_null out_val then mret (-1)%Z
  else
    try_catch
      (uint_result ← value_method elem_ptr (called_get_uint64 elem_ptr) get_uint64;
       if is_error (error uint_result) then mret (error uint_result)
       else
         store out_val (cell_uint64 (value_unsafe uint_result));;
         mret 0%Z)
      (mret (-1)%Z).

Definition simdjson_element_get_double (elem_ptr : simdjson_element_t)
    (out_val : N) : M Z :=
  if is_null elem_ptr || is_null out_val then mret (-1)%Z
  else
    try_catch
      (double_result ← value_method elem_ptr (called_get_double elem_ptr) get_double;
       if is_error (error double_result) then mret (error double_result)
       else
         store out_val (cell_double (value_unsafe double_result));;
         mret 0%Z)
      (mret (-1)%Z).

Definition simdjson_element_get_bool (elem_ptr : simdjson_element_t)
    (out_val : N) : M Z :=
  if is_null elem_ptr || is_null out_val then mret (-1)%Z
  else
    try_catch
      (bool_result ← value_method elem_ptr (called_get_bool elem_ptr) get_bool;
       if is_error (error bool_result) then mret (error bool_result)
       else
         store out_val (cell_int (if value_unsafe bool_result : bool then 1 else 0)%Z);;
         mret 0%Z)
      (mret (-1)%Z).

Definition simdjson_element_is_object (elem_ptr : simdjson_element_t) : M Z :=
  if is_null elem_ptr then mret 0%Z
  else
    try_catch
      (type_result ← value_method elem_ptr (called_type elem_ptr) type;
       if is_error (error type_result) then mret 0%Z
       else mret (if json_type.eqb (value_unsafe type_result) json_type.object
                  then 1 else 0)%Z)
      (mret 0%Z).

Definition simdjson_element_is_array (elem_ptr : simdjson_element_t) : M Z :=
  if is_null elem_ptr then mret 0%Z
  else
    try_catch
      (type_result ← value_method elem_ptr (called_type elem_ptr) type;
       if is_error (error type_result) then mret 0%Z
       else mret (if json_type.eqb (value_unsafe type_result) json_type.array
                  then 1 else 0)%Z)
      (mret 0%Z).

Definition simdjson_element_is_null (elem_ptr : simdjson_element_t) : M Z :=
  if is_null elem_ptr then mret 0%Z
  else
    try_catch
      (type_result ← value_method elem_ptr (called_type elem_ptr) type;
       if is_error (error type_result) then mret 0%Z
       else mret (if json_type.eqb (value_unsafe type_result) json_type.null
                  then 1 else 0)%Z)
      (mret 0%Z).

End Wrapper.

Arguments Normal {E A} a w.
Arguments Thrown {E A} w.
Arguments Undefined {E A}.

(** ** A reference engine

    The statements below hold for every engine.  Where the spec gives an
    example on concrete bytes, the example is run on this engine. *)

Module Reference.

(** Modelled from the spec: the engine's error enumeration
    ([simdjson::error_code]) is not among the sources.  The spec fixes
    [0] for success and asks for distinct non-zero codes per failure
    category ("unterminated string", "trailing content", type mismatch);
    the numbers below stand for them. *)
Definition SUCCESS : Z := 0.
Definition TAPE_ERROR : Z := 3.
Definition STRING_ERROR : Z := 5.
Definition NUMBER_ERROR : Z := 9.
Definition EMPTY : Z := 13.
Definition UNCLOSED_STRING : Z := 15.
Definition INCORRECT_TYPE : Z := 17.

(** The [n] bytes at [p]. *)
Definition read_bytes (m : memory) (p n : N) : list ascii :=
  (λ i : nat, default "000"%char (m !! (p + N.of_nat i))) <$> seq 0 (N.to_nat n).

(** What one document of the fragment holds. *)
Inductive token :=
| tok_null
| tok_bool (b : bool)
| tok_int (z : Z)
| tok_string (body : N)   (* number of bytes between the quotes *)
| tok_object
| tok_array.

Definition is_digit (c : ascii) : bool :=
  (48 <=? N_of_ascii c) && (N_of_ascii c <=? 57).

Fixpoint digits_value (acc : N) (l : list ascii) : option N :=
  match l with
  | [] => Some acc
  | c :: l' =>
      if is_digit c then digits_value (10 * acc + (N_of_ascii c - 48)) l' else None
  end.

(** JSON digits: at least one, no leading zero before another digit. *)
Definition natural (l : list ascii) : option N :=
  match l with
  | [] => None
  | "0"%char :: _ :: _ => None
  | _ => digits_value 0 l
  end.

(** A byte allowed unescaped inside a string: not a quote, not a backslash,
    not a control character. *)
Definition plain_char (c : ascii) : bool :=
  negb (N_of_ascii c =? 34) && negb (N_of_ascii c =? 92) && (32 <=? N_of_ascii c).

Definition text (l : list ascii) : String.string := string_of_list_ascii l.

(** The double quote, byte 34, and a text between two of them. *)
Definition quote : ascii := ascii_of_N 34.

(** Modelled from the spec: the engine's grammar is not among the sources
    and the spec leaves it out of scope.  The reference engine reads a
    fragment of JSON only: one value per document, with nothing before or
    after it, which is [null], [true], [false], an integer, a string without
    escapes, [{}] or [[]].  Whatever lies outside the fragment it reports with
    a non-zero code, well-formed documents included (fractions, exponents,
    escapes, surrounding blanks, non-empty arrays and objects).  It is
    therefore run on inputs of the fragment only, and no statement about every
    input rests on it: those are made for every engine, or for every engine
    that meets a stated contract. *)
Definition scan (l : list ascii) : Z * token :=
  match l with
  | [] => (EMPTY, tok_null)
  | c :: rest =>
      if Ascii.eqb c quote then
        match rev rest with
        | c' :: body =>
            if negb (Ascii.eqb c' quote) then (UNCLOSED_STRING, tok_null)
            else if forallb plain_char body
            then (SUCCESS, tok_string (N.of_nat (List.length body)))
            else (STRING_ERROR, tok_null)
        | [] => (UNCLOSED_STRING, tok_null)
        end
      else if Ascii.eqb c "-" then
        match natural rest with
        | Some n => (SUCCESS, tok_int (- Z.of_N n))
        | None => (NUMBER_ERROR, tok_null)
        end
      else if String.eqb (text l) "null" then (SUCCESS, tok_null)
      else if String.eqb (text l) "true" then (SUCCESS, tok_bool true)
      else if String.eqb (text l) "false" then (SUCCESS, tok_bool false)
      else if String.eqb (text l) "{}" then (SUCCESS, tok_object)
      else if String.eqb (text l) "[]" then (SUCCESS, tok_array)
      else match natural l with
           | Some n => (SUCCESS, tok_int (Z.of_N n))
           | None => (TAPE_ERROR, tok_null)
           end
  end.

(** Modelled from the spec: "the delegated engine model is pull-based: the
    root value's type and contents are resolved on first access, not eagerly
    at parse time" and "string payloads are views into the original input
    buffer, not copies".  A value is the byte range it will be read from. *)
Record lazy_value := { v_at : N; v_len : N }.

Definition resolve (v : lazy_value) (m : memory) : Z * token :=
  scan (read_bytes m (v_at v) (v_len v)).

Definition ok {T} (x : T) : simdjson_result T := {| error := SUCCESS; value_unsafe := x |}.
Definition failed {T} (e : Z) (dflt : T) : simdjson_result T :=
  {| error := e; value_unsafe := dflt |}.

(** An accessor: the value resolved, then the token matched against the
    requested type; any other token is a type mismatch. *)
Definition access {T} (pick : token → option (Z + T)) (dflt : T)
    (v : lazy_value) (m : memory) : raised (simdjson_result T) * lazy_value :=
  let '(e, tok) := resolve v m in
  (returns
     (if is_error e then failed e dflt
      else match pick tok with
           | Some (inr x) => ok x
           | Some (inl e') => failed e' dflt
           | None => failed INCORRECT_TYPE dflt
           end),
   v).

Definition in_range (lo hi z : Z) : bool := ((lo <=? z) && (z <? hi))%Z.

Definition pick_string (v : lazy_value) (tok : token) : option (Z + string_view) :=
  match tok with
  | tok_string body => Some (inr {| sv_data := v_at v + 1; sv_length := body |})
  | _ => None
  end.

Definition pick_int (lo hi : Z) (tok : token) : option (Z + Z) :=
  match tok with
  | tok_int z => Some (if in_range lo hi z then inr z else inl NUMBER_ERROR)
  | _ => None
  end.

Definition pick_bool (tok : token) : option (Z + bool) :=
  match tok with
  | tok_bool b => Some (inr b)
  | _ => None
  end.

Definition type_of (tok : token) : json_type.t :=
  match tok with
  | tok_null => json_type.null
  | tok_bool _ => json_type.boolean
  | tok_int _ => json_type.number
  | tok_string _ => json_type.string
  | tok_object => json_type.object
  | tok_array => json_type.array
  end.

(** The parser keeps scratch space "sized to the largest input seen". *)
Definition parse (capacity : N) (m : memory) (json n : N)
  : raised (simdjson_result lazy_value) * N :=
  let doc := {| v_at := json; v_len := n |} in
  (returns {| error := fst (scan (read_bytes m json n)); value_unsafe := doc |},
   N.max capacity n).

(** Modelled from the spec: the engine behind [simdjson/simdjson.h] is not
    among the sources.  This instance gives the interface the behaviour the
    spec's examples state: documents and values are byte ranges of the input,
    resolved on access; an accessor of the wrong type reports the
    type-mismatch code; no method raises.  The doubles of the fragment are the
    integers a binary64 holds exactly. *)
Definition engine : Engine := {|
  ondemand_parser := N;
  ondemand_document_stream := unit;
  ondemand_document := lazy_value;
  ondemand_value := lazy_value;
  double := Z;
  ondemand_parser_default := 0;
  ondemand_document_stream_default := tt;
  ondemand_value_default := {| v_at := 0; v_len := 0 |};
  parse_into_document := parse;
  document_to_value := λ d, returns d;
  get_string := λ v, access (pick_string v) {| sv_data := 0; sv_length := 0 |} v;
  get_int64 := access (pick_int (- 2 ^ 63) (2 ^ 63)) 0%Z;
  get_uint64 := access (pick_int 0 (2 ^ 64)) 0%Z;
  get_double := access (pick_int (- 2 ^ 53) (2 ^ 53 + 1)) 0%Z;
  get_bool := access pick_bool false;
  type := access (λ tok, Some (inr (type_of tok))) json_type.null;
|}.

(** [s] laid out from address [p] on. *)
Fixpoint poke (p : N) (s : list ascii) (m : memory) : memory :=
  match s with
  | [] => m
  | c :: s' => <[p:=c]> (poke (p + 1) s' m)
  end.

Definition put_string (p : N) (s : String.string) (m : memory) : memory :=
  poke p (list_ascii_of_string s) m.

(** A caller with one Parser handle at address 16, no other object, room
    for [k] more allocations, and [s] in a buffer at address 4096. *)
Definition buffer : N := 4096.

Definition parser0 : SimdJsonParserImpl (E := engine) :=
  @Build_SimdJsonParserImpl engine 0.

Definition start (k : nat) (s : String.string) : world (E := engine) := {|
  heap := {[ 16 := OParser parser0 ]};
  avail := k;
  bytes := put_string buffer s ∅;
  out := ∅;
  calls := []
|}.

(** The same caller once it also holds, at address 32, a Document of the
    first [n] bytes of the buffer, or an Element whose value is the root of
    those bytes. *)
Definition root_value (n : N) : lazy_value := {| v_at := buffer; v_len := n |}.

Definition document (n : N) : SimdJsonDocumentImpl (E := engine) :=
  @Build_SimdJsonDocumentImpl engine tt buffer n.

Definition element (n : N) : SimdJsonElementImpl (E := engine) :=
  @Build_SimdJsonElementImpl engine (root_value n).

Definition holding (o : object (E := engine)) (w : world (E := engine))
  : world (E := engine) :=
  with_heap (<[32 := o]> (heap w)) w.

End Reference.

(** An engine whose every method raises. *)
Module Raising.
Definition engine : Engine := {|
  ondemand_parser := unit;
  ondemand_document_stream := unit;
  ondemand_document := unit;
  ondemand_value := unit;
  double := unit;
  ondemand_parser_default := tt;
  ondemand_document_stream_default := tt;
  ondemand_value_default := tt;
  parse_into_document := λ p _ _ _, (raises, p);
  document_to_value := λ _, raises;
  get_string := λ v _, (raises, v);
  get_int64 := λ v _, (raises, v);
  get_uint64 := λ v _, (raises, v);
  get_double := λ v _, (raises, v);
  get_bool := λ v _, (raises, v);
  type := λ v _, (raises, v);
|}.

(** A caller of it that holds one Element at address 32. *)
Definition element : SimdJsonElementImpl (E := engine) :=
  @Build_SimdJsonElementImpl engine tt.

Definition start : world (E := engine) := {|
  heap := {[ 32 := OElement element ]};
  avail := 1;
  bytes := ∅;
  out := ∅;
  calls := []
|}.

End Raising.

(** An engine that parses everything and raises only when a document is
    converted into a value: the one path through RootOf on which an exception
    comes after the Element was allocated. *)
Module Unconvertible.

Definition engine : Engine := {|
  ondemand_parser := unit;
  ondemand_document_stream := unit;
  ondemand_document := unit;
  ondemand_value := unit;
  double := unit;
  ondemand_parser_default := tt;
  ondemand_document_stream_default := tt;
  ondemand_value_default := tt;
  parse_into_document := λ p _ _ _, (returns {| error := 0; value_unsafe := tt |}, p);
  document_to_value := λ _, raises;
  get_string := λ v _, (raises, v);
  get_int64 := λ v _, (raises, v);
  get_uint64 := λ v _, (raises, v);
  get_double := λ v _, (raises, v);
  get_bool := λ v _, (raises, v);
  type := λ v _, (raises, v);
|}.

(** A caller of it that holds one Document at address 32. *)
Definition document : SimdJsonDocumentImpl (E := engine) :=
  @Build_SimdJsonDocumentImpl engine tt 4096 2.

Definition start : world (E := engine) := {|
  heap := {[ 32 := ODocument document ]};
  avail := 1;
  bytes := ∅;
  out := ∅;
  calls := []
|}.

End Unconvertible.

(** * The vocabulary of the statements

    Liveness of handles, the operations under the names of the interface
    table, the worlds the equations below mention, the caller's side of a call
    sequence, and RootOf as the design note of the spec words it. *)

Section Vocabulary.
Context {E : Engine}.

(** A handle is live when it is not null and the heap holds an object of
    its kind at it. *)
Definition live_parser (w : world) (p : N) (impl : SimdJsonParserImpl) : Prop :=
  p ≠ nullptr ∧ heap w !! p = Some (OParser impl).
Definition live_document (w : world) (p : N) (d : SimdJsonDocumentImpl) : Prop :=
  p ≠ nullptr ∧ heap w !! p = Some (ODocument d).
Definition live_element (w : world) (p : N) (e : SimdJsonElementImpl) : Prop :=
  p ≠ nullptr ∧ heap w !! p = Some (OElement e).

(** The typed extractions of the interface table, each with the wrapper
    function behind it and the engine call it records. *)
Inductive extraction := GetString | GetInt64 | GetUint64 | GetDouble | GetBool.

Definition extract (op : extraction) : simdjson_element_t → N → M Z :=
  match op with
  | GetString => simdjson_element_get_string
  | GetInt64 => simdjson_element_get_int64
  | GetUint64 => simdjson_element_get_uint64
  | GetDouble => simdjson_element_get_double
  | GetBool => simdjson_element_get_bool
  end.

Definition extract_call (op : extraction) (elem : N) : engine_call :=
  match op with
  | GetString => called_get_string elem
  | GetInt64 => called_get_int64 elem
  | GetUint64 => called_get_uint64 elem
  | GetDouble => called_get_double elem
  | GetBool => called_get_bool elem
  end.

(** An accessor's answer with its value turned into the cell the wrapper
    would store. *)
Definition answer {T} (to_cell : T → cell)
    (r : raised (simdjson_result T) * ondemand_value)
  : raised (Z * cell) * ondemand_value :=
  (match fst r with
   | returns res => returns (error res, to_cell (value_unsafe res))
   | raises => raises
   end, snd r).

(** What the engine answers to the accessor behind [op] on value [v]: it
    raises, or gives a code and the datum an output location would get. *)
Definition engine_extract (op : extraction) (v : ondemand_value) (m : memory)
  : raised (Z * cell) * ondemand_value :=
  match op with
  | GetString =>
      answer (λ sv, cell_string {| data := sv_data sv; len := sv_length sv |})
             (get_string v m)
  | GetInt64 => answer cell_int64 (get_int64 v m)
  | GetUint64 => answer cell_uint64 (get_uint64 v m)
  | GetDouble => answer cell_double (get_double v m)
  | GetBool => answer (λ b : bool, cell_int (if b then 1 else 0)%Z) (get_bool v m)
  end.

(** The type queries of the interface table, each with the wrapper function
    behind it and the type it asks for. *)
Inductive introspection := IsObject | IsArray | IsNull.

Definition query (op : introspection) : simdjson_element_t → M Z :=
  match op with
  | IsObject => simdjson_element_is_object
  | IsArray => simdjson_element_is_array
  | IsNull => simdjson_element_is_null
  end.

Definition queried (op : introspection) : json_type.t :=
  match op with
  | IsObject => json_type.object
  | IsArray => json_type.array
  | IsNull => json_type.null
  end.

(** The world after an accessor ran on the element at [elem]: the value's
    new state is in place and the call is on record. *)
Definition accessed (elem : N) (c : engine_call) (v' : ondemand_value)
    (w : world) : world :=
  with_call c (with_heap (<[elem := OElement {| value := v' |}]> (heap w)) w).

(** The world after [parse_into_document] ran on the Parser at [p]. *)
Definition parsed (p json n : N) (p' : ondemand_parser) (w : world) : world :=
  with_call (called_parse_into_document (ctx_handle p) json n)
    (with_heap (<[p := OParser {| parser := p' |}]> (heap w)) w).

(** The address the next [new] returns. *)
Definition next_address (w : world) : N := fresh ({[nullptr]} ∪ dom (heap w)).

(** The world after the function-local parser ran on [(json, n)]. *)
Definition reparsed (json n : N) (w : world) : world :=
  with_call (called_parse_into_document ctx_local json n) w.

(** [*out_doc] read back by the caller; reading a location that was never
    written has no defined behaviour. *)
Definition load_document (p : N) : M simdjson_document_t := λ w,
  match out w !! p with
  | Some (cell_document h) => Normal h w
  | _ => Undefined
  end.

(** The caller changes its own bytes between two calls. *)
Definition caller_writes (f : memory → memory) : M unit := λ w,
  Normal tt {| heap := heap w; avail := avail w; bytes := f (bytes w);
               out := out w; calls := calls w |}.

(** What a call returned, and the world it left. *)
Definition result {A} (o : outcome A) : option A :=
  match o with Normal a _ => Some a | _ => None end.

Definition final {A} (o : outcome A) : option world :=
  match o with Normal _ w | Thrown w => Some w | Undefined => None end.

(** Nothing leaves the computation as an exception. *)
Definition contained {A} (m : M A) : Prop := ∀ w w', m w ≠ Thrown w'.



(** Parse, then RootOf on the handle Parse wrote; a null element when Parse
    did not return 0. *)
Definition root_of (parser_ptr json n out_doc : N) : M simdjson_element_t :=
  status ← simdjson_parse parser_ptr json n out_doc;
  if is_error status then mret nullptr
  else
    doc ← load_document out_doc;
    simdjson_document_root doc.

(** GetInt64, then GetString, on the root of the [n] bytes at [json]. *)
Definition int64_then_string (parser_ptr json n : N) : M (Z * Z) :=
  root ← root_of parser_ptr json n 100;
  as_int ← simdjson_element_get_int64 root 200;
  as_string ← simdjson_element_get_string root 300;
  mret (as_int, as_string).

(** IsNull on the root of the [n] bytes at [json]. *)
Definition root_is_null (parser_ptr json n : N) : M Z :=
  root ← root_of parser_ptr json n 100;
  simdjson_element_is_null root.



(** IsObject, IsArray, then GetBool, on the root of the [n] bytes at [json]. *)
Definition queries_then_bool (parser_ptr json n : N) : M (Z * Z * Z) :=
  root ← root_of parser_ptr json n 100;
  is_object ← simdjson_element_is_object root;
  is_array ← simdjson_element_is_array root;
  as_bool ← simdjson_element_get_bool root 200;
  mret (is_object, is_array, as_bool).

(** One of everything, created and freed once: the status of Parse. *)
Definition lifecycle (json n : N) : M Z :=
  parser ← simdjson_create_parser;
  status ← simdjson_parse parser json n 100;
  doc ← load_document 100;
  root ← simdjson_document_root doc;
  simdjson_free_element root;;
  simdjson_free_document doc;;
  simdjson_free_parser parser;;
  mret status.

(** The document a parse of [(buffer, length)] gives when it is run in a
    parsing context made for this one parse and dropped after it; nothing
    when the engine raises or reports an error. *)
Definition fresh_document (m : memory) (buffer length : N) : option ondemand_document :=
  let context := ondemand_parser_default in
  match parse_into_document context m buffer length with
  | (returns res, _) => if is_error (error res) then None else Some (value_unsafe res)
  | (raises, _) => None
  end.

(** The root of that document; nothing when there is no document or its
    conversion to a value raises. *)
Definition fresh_reparse (m : memory) (buffer length : N) : option ondemand_value :=
  match fresh_document m buffer length with
  | Some doc =>
      match document_to_value doc with
      | returns root => Some root
      | raises => None
      end
  | None => None
  end.

(** RootOf in the words of the spec's design note: re-invoke the parse
    routine against the stored buffer with a disposable context, take no part
    of any earlier parse state, and hand out the root of that parse in a new
    Element; null when there is no root or no memory for the Element.  As in
    the source, the Element is made before the document is converted into its
    value, so a conversion that raises leaves the new Element behind. *)
Definition RootOf_by_reparse (buffer length : N) : M simdjson_element_t := λ w,
  let w1 := reparsed buffer length w in
  match fresh_document (bytes w) buffer length, avail w with
  | Some doc, S k =>
      let elem := next_address w in
      match document_to_value doc with
      | returns root =>
          Normal elem
            (with_avail k
               (with_heap (<[elem := OElement {| value := root |}]> (heap w)) w1))
      | raises =>
          Normal nullptr
            (with_avail k
               (with_heap (<[elem := OElement {| value := ondemand_value_default |}]>
                             (heap w)) w1))
      end
  | _, _ => Normal nullptr w1
  end.

(** Every way RootOf can fail on a live Document: the engine raises, the
    re-parse reports an error, [new] has no memory for the Element, or the
    conversion of the document into the Element's value raises. *)
Definition reparse_raises (w : world) (d : SimdJsonDocumentImpl) : Prop :=
  fst (parse_into_document ondemand_parser_default (bytes w) (json_data d) (json_len d))
  = raises.

Definition reparse_reports_error (w : world) (d : SimdJsonDocumentImpl) : Prop :=
  ∃ res,
    fst (parse_into_document ondemand_parser_default (bytes w) (json_data d) (json_len d))
    = returns res ∧ error res ≠ 0%Z.

Definition element_allocation_fails (w : world) (d : SimdJsonDocumentImpl) : Prop :=
  ∃ res,
    fst (parse_into_document ondemand_parser_default (bytes w) (json_data d) (json_len d))
    = returns res ∧ error res = 0%Z ∧ avail w = 0%nat.

Definition conversion_raises (w : world) (d : SimdJsonDocumentImpl) : Prop :=
  ∃ res,
    fst (parse_into_document ondemand_parser_default (bytes w) (json_data d) (json_len d))
    = returns res ∧ error res = 0%Z ∧ avail w ≠ 0%nat ∧
    document_to_value (value_unsafe res) = raises.

(** Parse, then the caller rewrites its buffer, then RootOf and GetInt64 on
    the root: the status of Parse, the root handle and the status of
    GetInt64. *)
Definition overwrite_then_root (parser_ptr json n : N)
    (poke_bytes : memory → memory) : M (Z * simdjson_element_t * Z) :=
  status ← simdjson_parse parser_ptr json n 100;
  doc ← load_document 100;
  caller_writes poke_bytes;;
  root ← simdjson_document_root doc;
  as_int ← simdjson_element_get_int64 root 200;
  mret (status, root, as_int).

(** An exception inside Parse: the engine raises, or the engine succeeds and
    [new] has no memory for the Document. *)
Definition parse_exception (w : world) (impl : SimdJsonParserImpl) (json n : N) : Prop :=
  match fst (parse_into_document (parser impl) (bytes w) json n) with
  | raises => True
  | returns res => error res = 0%Z ∧ avail w = 0%nat
  end.

(** An exception inside RootOf: the engine raises in the re-parse, [new] has
    no memory, or the conversion into the Element's value raises. *)
Definition root_exception (w : world) (d : SimdJsonDocumentImpl) : Prop :=
  reparse_raises w d ∨ element_allocation_fails w d ∨ conversion_raises w d.

(** One call of the interface, with its arguments. *)
Inductive api_call :=
| CreateParser
| FreeParser (parser : simdjson_parser_t)
| Parse (parser : simdjson_parser_t) (json n out_doc : N)
| FreeDocument (doc : simdjson_document_t)
| RootOf (doc : simdjson_document_t)
| FreeElement (elem : simdjson_element_t)
| Extract (op : extraction) (elem : simdjson_element_t) (out_val : N)
| Query (op : introspection) (elem : simdjson_element_t).

(** The world a call leaves; none when the call has no defined behaviour. *)
Definition perform (c : api_call) (w : world) : option world :=
  match c with
  | CreateParser => final (simdjson_create_parser w)
  | FreeParser p => final (simdjson_free_parser p w)
  | Parse p json n out_doc => final (simdjson_parse p json n out_doc w)
  | FreeDocument d => final (simdjson_free_document d w)
  | RootOf d => final (simdjson_document_root d w)
  | FreeElement e => final (simdjson_free_element e w)
  | Extract op e out_val => final (extract op e out_val w)
  | Query op e => final (query op e w)
  end.

(** A host's calls, one after the other. *)
Fixpoint perform_all (cs : list api_call) (w : world) : option world :=
  match cs with
  | [] => Some w
  | c :: cs' => perform c w ≫= perform_all cs'
  end.

(** The output location a call is given, if any. *)
Definition target (c : api_call) : option N :=
  match c with
  | Parse _ _ _ out_doc => Some out_doc
  | Extract _ _ out_val => Some out_val
  | _ => None
  end.

(** How many engine methods the source of a call names. *)
Definition engine_cost (c : api_call) : nat :=
  match c with
  | Parse _ _ _ _ | RootOf _ | Extract _ _ _ | Query _ _ => 1
  | CreateParser | FreeParser _ | FreeDocument _ | FreeElement _ => 0
  end.

(** What a computation may do to the world around a location [q] within [k]
    engine calls: the caller's bytes stay, [q] stays, the log grows by at
    most [k] entries. *)
Definition effect (q : N) (k : nat) (w w' : world) : Prop :=
  bytes w' = bytes w ∧
  out w' !! q = out w !! q ∧
  ∃ l, calls w' = calls w ++ l ∧ (List.length l ≤ k)%nat.

Definition confined {A} (q : N) (k : nat) (m : M A) : Prop :=
  ∀ w, match final (m w) with
       | Some w' => effect q k w w'
       | None => True
       end.

(** The three release functions under one name, with the kind of object each
    one deletes. *)
Inductive handle_kind := KParser | KDocument | KElement.

Definition free (k : handle_kind) : N → M unit :=
  match k with
  | KParser => simdjson_free_parser
  | KDocument => simdjson_free_document
  | KElement => simdjson_free_element
  end.

Definition has_kind (k : handle_kind) (o : object) : bool :=
  match k with
  | KParser => is_parser o
  | KDocument => is_document o
  | KElement => is_element o
  end.

(** CreateParser, then FreeParser on what it returned. *)
Definition create_then_free : M unit :=
  parser ← simdjson_create_parser;
  simdjson_free_parser parser.

(** A datum of the type the extraction [op] writes; a boolean is 0 or 1. *)
Definition cell_fits (op : extraction) (c : cell) : Prop :=
  match op with
  | GetString => ∃ s, c = cell_string s
  | GetInt64 => ∃ v, c = cell_int64 v
  | GetUint64 => ∃ v, c = cell_uint64 v
  | GetDouble => ∃ v, c = cell_double v
  | GetBool => c = cell_int 0 ∨ c = cell_int 1
  end.

End Vocabulary.


(** * One equation per function

    On guarded, live arguments each function of the wrapper is a case
    analysis on what the engine answers. *)

Lemma json_type_eqb_eq a b : json_type.eqb a b = true ↔ a = b.
Proof. destruct a, b; simpl; split; congruence. Qed.

Section Equations.
Context {E : Engine}.

Lemma not_null p : p ≠ nullptr → is_null p = false.
Proof. intros H. unfold is_null. apply N.eqb_neq. exact H. Qed.

Lemma is_error_true e : is_error e = true ↔ e ≠ 0%Z.
Proof. unfold is_error. rewrite negb_true_iff. apply Z.eqb_neq. Qed.

Lemma is_error_false e : is_error e = false ↔ e = 0%Z.
Proof. unfold is_error. rewrite negb_false_iff. apply Z.eqb_eq. Qed.

Lemma extract_eq op w elem out_val impl :
  live_element w elem impl → out_val ≠ nullptr →
  extract op elem out_val w =
    let '(r, v') := engine_extract op (value impl) (bytes w) in
    let w1 := accessed elem (extract_call op elem) v' w in
    match r with
    | returns (e, c) =>
        if is_error e then Normal e w1
        else Normal 0%Z (with_out (<[out_val := c]> (out w1)) w1)
    | raises => Normal (-1)%Z w1
    end.
Proof.
  intros [Hn Hl] Ho.
  destruct op; simpl;
    unfold simdjson_element_get_string, simdjson_element_get_int64,
      simdjson_element_get_uint64, simdjson_element_get_double,
      simdjson_element_get_bool;
    rewrite (not_null _ Hn), (not_null _ Ho); simpl;
    unfold try_catch, mbind, M_bind, value_method, answer; rewrite Hl;
    match goal with |- context [?f (value impl) (bytes w)] =>
      destruct (f (value impl) (bytes w)) as [[r|] v'] end; simpl;
    try reflexivity;
    destruct (is_error (error r)); reflexivity.
Qed.

Lemma next_address_not_null w : next_address w ≠ nullptr.
Proof.
  unfold next_address.
  pose proof (is_fresh ({[nullptr]} ∪ dom (heap w))) as Hf. set_solver.
Qed.

Lemma next_address_fresh w : heap w !! next_address w = None.
Proof.
  unfold next_address. apply not_elem_of_dom.
  pose proof (is_fresh ({[nullptr]} ∪ dom (heap w))) as Hf. set_solver.
Qed.

Lemma parse_eq w parser_ptr json n out_doc impl :
  live_parser w parser_ptr impl → json ≠ nullptr → out_doc ≠ nullptr →
  simdjson_parse parser_ptr json n out_doc w =
    let '(r, p') := parse_into_document (parser impl) (bytes w) json n in
    let w1 := parsed parser_ptr json n p' w in
    match r with
    | raises => Normal (-1)%Z w1
    | returns res =>
        if is_error (error res) then Normal (error res) w1
        else
          match avail w with
          | O => Normal (-1)%Z w1
          | S k =>
              let doc := next_address w1 in
              let d := {| stream := ondemand_document_stream_default;
                          json_data := json; json_len := n |} in
              Normal 0%Z
                (with_out (<[out_doc := cell_document doc]> (out w))
                   (with_avail k (with_heap (<[doc := ODocument d]> (heap w1)) w1)))
          end
    end.
Proof.
  intros [Hn Hl] Hj Ho. unfold simdjson_parse.
  rewrite (not_null _ Hn), (not_null _ Hj), (not_null _ Ho). simpl.
  unfold try_catch, mbind, M_bind, handle_parse_into_document. rewrite Hl.
  destruct (parse_into_document (parser impl) (bytes w) json n) as [[res|] p'];
    simpl; [|reflexivity].
  destruct (is_error (error res)); [reflexivity|].
  unfold new. simpl. destruct (avail w) as [|k]; [reflexivity|]. simpl.
  unfold set_json_data, set_json_len, store, next_address. simpl.
  rewrite !lookup_insert_eq. simpl. rewrite !lookup_insert_eq. simpl.
  unfold mret, M_ret, with_out, with_avail, with_heap, parsed, with_call. simpl.
  rewrite !insert_insert_eq. reflexivity.
Qed.

Lemma root_eq w doc_ptr d :
  live_document w doc_ptr d →
  simdjson_document_root doc_ptr w =
    let w1 := reparsed (json_data d) (json_len d) w in
    match fst (parse_into_document ondemand_parser_default (bytes w)
                 (json_data d) (json_len d)) with
    | raises => Normal nullptr w1
    | returns res =>
        if is_error (error res) then Normal nullptr w1
        else
          match avail w with
          | O => Normal nullptr w1
          | S k =>
              let elem := next_address w in
              match document_to_value (value_unsafe res) with
              | returns root =>
                  Normal elem
                    (with_avail k
                       (with_heap (<[elem := OElement {| value := root |}]> (heap w)) w1))
              | raises =>
                  Normal nullptr
                    (with_avail k
                       (with_heap
                          (<[elem := OElement {| value := ondemand_value_default |}]>
                             (heap w)) w1))
              end
          end
    end.
Proof.
  intros [Hn Hl]. unfold simdjson_document_root. rewrite (not_null _ Hn).
  unfold try_catch, mbind, M_bind, deref_document, local_parse_into_document.
  rewrite Hl.
  destruct (fst (parse_into_document ondemand_parser_default (bytes w)
                   (json_data d) (json_len d))) as [res|]; simpl; [|reflexivity].
  destruct (is_error (error res)); [reflexivity|].
  unfold new. simpl. destruct (avail w) as [|k]; [reflexivity|]. simpl.
  unfold convert_document.
  destruct (document_to_value (value_unsafe res)) as [root|]; [|reflexivity].
  unfold set_value, next_address. simpl. rewrite lookup_insert_eq. simpl.
  unfold mret, M_ret, with_avail, with_heap, reparsed, with_call. simpl.
  rewrite insert_insert_eq. reflexivity.
Qed.

Lemma query_eq op w elem impl :
  live_element w elem impl →
  query op elem w =
    let '(r, v') := type (value impl) (bytes w) in
    let w1 := accessed elem (called_type elem) v' w in
    match r with
    | raises => Normal 0%Z w1
    | returns res =>
        if is_error (error res) then Normal 0%Z w1
        else Normal (if json_type.eqb (value_unsafe res) (queried op)
                     then 1 else 0)%Z w1
    end.
Proof.
  intros [Hn Hl].
  destruct op; simpl;
    unfold simdjson_element_is_object, simdjson_element_is_array,
      simdjson_element_is_null;
    rewrite (not_null _ Hn);
    unfold try_catch, mbind, M_bind, value_method; rewrite Hl;
    destruct (type (value impl) (bytes w)) as [[res|] v']; simpl;
    try reflexivity;
    destruct (is_error (error res)); reflexivity.
Qed.

Lemma create_parser_eq w :
  simdjson_create_parser w =
    match avail w with
    | O => Normal nullptr w
    | S k =>
        let p := next_address w in
        Normal p (with_avail k
          (with_heap (<[p := OParser {| parser := ondemand_parser_default |}]> (heap w)) w))
    end.
Proof.
  unfold simdjson_create_parser, try_catch, mbind, M_bind, new.
  destruct (avail w); reflexivity.
Qed.

Lemma try_catch_contained {A} (body : M A) (a : A) : contained (try_catch body (mret a)).
Proof. intros w w'. unfold try_catch. destruct (body w); discriminate. Qed.

Lemma mret_contained {A} (a : A) : contained (mret a : M A).
Proof. intros w w'. discriminate. Qed.

Lemma delete_contained k p : contained (delete k p).
Proof.
  intros w w'. unfold delete. destruct (heap w !! p) as [o|]; [|discriminate].
  destruct (k o); discriminate.
Qed.

Lemma is_null_nullptr : is_null nullptr = true.
Proof. reflexivity. Qed.

Lemma extract_guard (op : extraction) (elem out_val : N) (w : world) :
  is_null elem || is_null out_val = true → extract op elem out_val w = Normal (-1)%Z w.
Proof.
  intros Hg.
  destruct op; simpl;
    unfold simdjson_element_get_string, simdjson_element_get_int64,
      simdjson_element_get_uint64, simdjson_element_get_double,
      simdjson_element_get_bool;
    rewrite Hg; reflexivity.
Qed.

Lemma root_by_reparse w doc_ptr d :
  live_document w doc_ptr d →
  simdjson_document_root doc_ptr w = RootOf_by_reparse (json_data d) (json_len d) w.
Proof.
  intros Hl. rewrite (root_eq _ _ _ Hl). unfold RootOf_by_reparse, fresh_document.
  destruct (parse_into_document ondemand_parser_default (bytes w)
              (json_data d) (json_len d)) as [[res|] p']; simpl; [|reflexivity].
  destruct (is_error (error res)); [reflexivity|].
  destruct (avail w); reflexivity.
Qed.

Lemma create_parser_contained : contained simdjson_create_parser.
Proof. apply try_catch_contained. Qed.

Lemma free_contained k p :
  contained (if is_null p then mret tt else delete k p).
Proof. destruct (is_null p); [apply mret_contained | apply delete_contained]. Qed.

Lemma parse_contained parser_ptr json n out_doc :
  contained (simdjson_parse parser_ptr json n out_doc).
Proof.
  unfold simdjson_parse.
  destruct (is_null parser_ptr || is_null json || is_null out_doc);
    [apply mret_contained | apply try_catch_contained].
Qed.

Lemma root_contained doc_ptr : contained (simdjson_document_root doc_ptr).
Proof.
  unfold simdjson_document_root.
  destruct (is_null doc_ptr); [apply mret_contained | apply try_catch_contained].
Qed.

Lemma extract_contained op elem out_val : contained (extract op elem out_val).
Proof.
  destruct op; simpl;
    unfold simdjson_element_get_string, simdjson_element_get_int64,
      simdjson_element_get_uint64, simdjson_element_get_double,
      simdjson_element_get_bool;
    (destruct (is_null elem || is_null out_val);
       [apply mret_contained | apply try_catch_contained]).
Qed.

Lemma query_contained op elem : contained (query op elem).
Proof.
  destruct op; simpl;
    unfold simdjson_element_is_object, simdjson_element_is_array,
      simdjson_element_is_null;
    (destruct (is_null elem); [apply mret_contained | apply try_catch_contained]).
Qed.

End Equations.

(** * The reference engine's strings *)





(** * The examples of the spec on the reference engine *)

(** On the four bytes [true], IsObject and IsArray return 0 and GetBool
    returns 0 and writes 1. *)
Example true_is_a_boolean :
  let run := queries_then_bool 16 Reference.buffer 4 (Reference.start 5 "true") in
  result run = Some (0%Z, 0%Z, 0%Z) ∧
  (final run ≫= λ w, out w !! 200) = Some (cell_int 1).
Proof. split; reflexivity. Qed.

(** Created once and freed once, a Parser, its Document and the root Element
    leave the heap as it was before the first of them was made. *)
Example free_once_per_create_leaks_nothing :
  let run := lifecycle Reference.buffer 2 (Reference.start 5 "42") in
  result run = Some 0%Z ∧
  (heap <$> final run) = Some (heap (Reference.start 5 "42")).
Proof. split; reflexivity. Qed.

(** When the conversion raises, RootOf returns null and the Element it had
    allocated is still in the heap after FreeElement on that null handle. *)
Example conversion_failure_leaves_an_element :
  let w := Unconvertible.start in
  let run := (root ← simdjson_document_root 32;
              simdjson_free_element root;;
              mret root) w in
  result run = Some nullptr ∧
  (final run ≫= λ w', heap w' !! next_address w)
    = Some (OElement (@Build_SimdJsonElementImpl Unconvertible.engine tt)) ∧
  heap w !! next_address w = None.
Proof. repeat split; reflexivity. Qed.

(** * The properties of the interface *)

(** ** Root element access: a re-parse *)

(** C1: on every live Document, RootOf is the re-parse of the stored
    [(buffer, length)] pair in a parsing context of its own: the two
    computations are equal.  When it returns an element, that element is new,
    its value is the root of this re-parse of the bytes as they are now, every
    other object (the Document and the Parsers among them) is as it was, and
    the one engine call on record is a parse of the stored pair on the
    function-local parser.  Neither the Document's [stream] nor any Parser
    object enters the result. *)
Theorem root_is_a_fresh_reparse {E : Engine}
    (w : world) (doc_ptr : N) (d : SimdJsonDocumentImpl) :
  live_document w doc_ptr d →
  simdjson_document_root doc_ptr w = RootOf_by_reparse (json_data d) (json_len d) w ∧
  ∀ elem w',
    simdjson_document_root doc_ptr w = Normal elem w' → elem ≠ nullptr →
    ∃ root,
      fresh_reparse (bytes w) (json_data d) (json_len d) = Some root ∧
      heap w !! elem = None ∧
      heap w' !! elem = Some (OElement {| value := root |}) ∧
      (∀ a, a ≠ elem → heap w' !! a = heap w !! a) ∧
      calls w' =
        calls w ++ [called_parse_into_document ctx_local (json_data d) (json_len d)].
Proof.
  intros Hl. split; [apply root_by_reparse, Hl|].
  intros elem w'. rewrite (root_by_reparse _ _ _ Hl).
  unfold RootOf_by_reparse, fresh_reparse.
  destruct (fresh_document (bytes w) (json_data d) (json_len d)) as [doc|];
    [|intros [= <- _]; congruence].
  destruct (avail w) as [|k]; [intros [= <- _]; congruence|].
  destruct (document_to_value doc) as [root|]; [|intros [= <- _]; congruence].
  intros [= <- <-] _. exists root. simpl.
  split; [reflexivity|]. split; [apply next_address_fresh|].
  split; [apply lookup_insert_eq|]. split; [|reflexivity].
  intros a Ha. apply lookup_insert_ne. congruence.
Qed.

Lemma root_is_a_fresh_reparse_witness :
  let w := Reference.holding (ODocument (Reference.document 2)) (Reference.start 5 "42") in
  simdjson_document_root 32 w = RootOf_by_reparse Reference.buffer 2 w.
Proof.
  apply (root_is_a_fresh_reparse
           (Reference.holding (ODocument (Reference.document 2)) (Reference.start 5 "42"))
           32 (Reference.document 2)).
  split; [discriminate | reflexivity].
Defined.

(** The bytes are read again at RootOf: a buffer that parsed as [42] and is
    then overwritten with [4x] has no root, although Parse returned 0; one
    overwritten with [43] has the root 43. *)
Example root_follows_the_buffer :
  result (overwrite_then_root (E := Reference.engine) 16 Reference.buffer 2
            (Reference.put_string Reference.buffer "4x") (Reference.start 5 "42"))
    = Some (0%Z, nullptr, (-1)%Z) ∧
  (let run := overwrite_then_root (E := Reference.engine) 16 Reference.buffer 2
                (Reference.put_string Reference.buffer "43") (Reference.start 5 "42") in
   (snd <$> result run) = Some 0%Z ∧
   (final run ≫= λ w, out w !! 200) = Some (cell_int64 43)).
Proof. repeat split; reflexivity. Qed.

(** ** String extraction *)




(** ** Parse on malformed input *)

(** C3: on a live parser and a non-null buffer and output location, when the
    engine's parse reports an error code, Parse returns that very code, which
    is not zero, writes no output location, and allocates nothing: the heap
    holds the same addresses as before and only the Parser object changed. *)
Theorem parse_failure_returns_engine_code {E : Engine}
    (w : world) (parser_ptr json n out_doc : N)
    (impl : SimdJsonParserImpl) (res : simdjson_result ondemand_document)
    (p' : ondemand_parser) :
  live_parser w parser_ptr impl → json ≠ nullptr → out_doc ≠ nullptr →
  parse_into_document (parser impl) (bytes w) json n = (returns res, p') →
  error res ≠ 0%Z →
  ∃ w',
    simdjson_parse parser_ptr json n out_doc w = Normal (error res) w' ∧
    out w' = out w ∧
    avail w' = avail w ∧
    dom (heap w') = dom (heap w) ∧
    (∀ a, a ≠ parser_ptr → heap w' !! a = heap w !! a) ∧
    calls w' = calls w ++ [called_parse_into_document (ctx_handle parser_ptr) json n].
Proof.
  intros Hp Hj Ho He Hne.
  rewrite (parse_eq _ _ _ _ _ _ Hp Hj Ho), He. simpl.
  apply is_error_true in Hne. rewrite Hne.
  eexists. split; [reflexivity|]. simpl.
  destruct Hp as [_ Hl].
  repeat split.
  - apply dom_insert_lookup_L. rewrite Hl. eauto.
  - intros a Ha. apply lookup_insert_ne. congruence.
Qed.

Lemma parse_failure_returns_engine_code_witness :
  ∃ w',
    simdjson_parse 16 Reference.buffer 2 100 (Reference.start 5 "4x")
    = Normal Reference.TAPE_ERROR w' ∧
    out w' = ∅ ∧ avail w' = 5%nat.
Proof.
  destruct (parse_failure_returns_engine_code
              (Reference.start 5 "4x") 16 Reference.buffer 2 100
              Reference.parser0
              {| error := Reference.TAPE_ERROR; value_unsafe := Reference.root_value 2 |}
              (2 : @ondemand_parser Reference.engine))
    as (w' & Hrun & Hout & Hav & _).
  - split; [discriminate | reflexivity].
  - discriminate.
  - discriminate.
  - reflexivity.
  - discriminate.
  - exists w'. auto.
Defined.

(** ** The boundary *)

(** C4: no operation of the interface is ever left by an exception, whatever
    the engine does and whatever the arguments are.  When an exception does
    occur inside one, a status operation (Parse, the five extractions) returns
    -1, CreateParser and RootOf return null, and an introspection returns 0. *)
Theorem no_exception_crosses_the_boundary {E : Engine} :
  (contained simdjson_create_parser ∧
   (∀ p, contained (simdjson_free_parser p)) ∧
   (∀ p json n out_doc, contained (simdjson_parse p json n out_doc)) ∧
   (∀ doc, contained (simdjson_free_document doc)) ∧
   (∀ doc, contained (simdjson_document_root doc)) ∧
   (∀ elem, contained (simdjson_free_element elem)) ∧
   (∀ op elem out_val, contained (extract op elem out_val)) ∧
   (∀ op elem, contained (query op elem))) ∧
  (∀ w p impl json n out_doc,
     live_parser w p impl → json ≠ nullptr → out_doc ≠ nullptr →
     parse_exception w impl json n →
     result (simdjson_parse p json n out_doc w) = Some (-1)%Z) ∧
  (∀ w op elem impl out_val,
     live_element w elem impl → out_val ≠ nullptr →
     fst (engine_extract op (value impl) (bytes w)) = raises →
     result (extract op elem out_val w) = Some (-1)%Z) ∧
  (∀ w, avail w = 0%nat → result (simdjson_create_parser w) = Some nullptr) ∧
  (∀ w doc d,
     live_document w doc d → root_exception w d →
     result (simdjson_document_root doc w) = Some nullptr) ∧
  (∀ w op elem impl,
     live_element w elem impl →
     fst (type (value impl) (bytes w)) = raises →
     result (query op elem w) = Some 0%Z).
Proof.
  split; [|repeat split].
  - repeat split.
    + apply create_parser_contained.
    + intros p. apply free_contained.
    + apply parse_contained.
    + intros doc. apply free_contained.
    + apply root_contained.
    + intros elem. apply free_contained.
    + apply extract_contained.
    + apply query_contained.
  - intros w p impl json n out_doc Hl Hj Ho Hex.
    rewrite (parse_eq _ _ _ _ _ _ Hl Hj Ho). unfold parse_exception in Hex.
    destruct (parse_into_document (parser impl) (bytes w) json n) as [[res|] p'];
      simpl in *; [|reflexivity].
    destruct Hex as [He Ha]. apply is_error_false in He. rewrite He, Ha. reflexivity.
  - intros w op elem impl out_val Hl Ho Hr.
    rewrite (extract_eq _ _ _ _ _ Hl Ho).
    destruct (engine_extract op (value impl) (bytes w)) as [[[e c]|] v'];
      simpl in *; [discriminate | reflexivity].
  - intros w Ha. rewrite create_parser_eq, Ha. reflexivity.
  - intros w doc d Hl Hex. rewrite (root_eq _ _ _ Hl).
    destruct Hex as [Hr | [(res & Hr & He & Ha) | (res & Hr & He & Ha & Hc)]].
    + unfold reparse_raises in Hr. rewrite Hr. reflexivity.
    + rewrite Hr. apply is_error_false in He. rewrite He, Ha. reflexivity.
    + rewrite Hr. apply is_error_false in He. rewrite He.
      destruct (avail w) as [|k]; [reflexivity|]. simpl. rewrite Hc. reflexivity.
  - intros w op elem impl Hl Hr. rewrite (query_eq _ _ _ _ Hl).
    destruct (type (value impl) (bytes w)) as [[res|] v'];
      simpl in *; [discriminate | reflexivity].
Qed.

Lemma no_exception_crosses_the_boundary_witness :
  result (simdjson_element_get_bool 32 200 Raising.start) = Some (-1)%Z.
Proof.
  apply (proj1 (proj2 (proj2 (no_exception_crosses_the_boundary (E := Raising.engine))))
           Raising.start GetBool 32 Raising.element 200).
  - split; [discriminate | reflexivity].
  - discriminate.
  - reflexivity.
Defined.

(** ** Typed extraction *)

(** C5: on a live element and a non-null output location, when the engine's
    accessor reports an error code, each of the five extractions returns that
    very code, which is not zero, and writes no output location.  With the
    reference engine, after parsing the two bytes [42], GetInt64 on the root
    returns 0 and writes 42, and GetString on the same root returns the
    type-mismatch code and writes nothing. *)
Theorem extraction_mismatch_returns_engine_code :
  (∀ (E : Engine) (w : world) (op : extraction) (elem out_val : N)
     (impl : SimdJsonElementImpl) (e : Z) (c : cell) (v' : ondemand_value),
     live_element w elem impl → out_val ≠ nullptr →
     engine_extract op (value impl) (bytes w) = (returns (e, c), v') →
     e ≠ 0%Z →
     ∃ w', extract op elem out_val w = Normal e w' ∧ out w' = out w) ∧
  (let run := int64_then_string (E := Reference.engine) 16 Reference.buffer 2
                (Reference.start 5 "42") in
   result run = Some (0%Z, Reference.INCORRECT_TYPE) ∧
   Reference.INCORRECT_TYPE ≠ 0%Z ∧
   (final run ≫= λ w, out w !! 200) = Some (cell_int64 42) ∧
   (final run ≫= λ w, out w !! 300) = None).
Proof.
  split.
  - intros E w op elem out_val impl e c v' Hl Ho He Hne.
    rewrite (extract_eq _ _ _ _ _ Hl Ho), He.
    apply is_error_true in Hne. rewrite Hne.
    eexists. split; reflexivity.
  - intros run. repeat split; try reflexivity. discriminate.
Qed.

Lemma extraction_mismatch_returns_engine_code_witness :
  ∃ w',
    simdjson_element_get_string 32 300
      (Reference.holding (OElement (Reference.element 2)) (Reference.start 5 "42"))
    = Normal Reference.INCORRECT_TYPE w' ∧ out w' = ∅.
Proof.
  apply (proj1 extraction_mismatch_returns_engine_code Reference.engine
           (Reference.holding (OElement (Reference.element 2)) (Reference.start 5 "42"))
           GetString 32 300 (Reference.element 2)
           Reference.INCORRECT_TYPE
           (cell_string {| data := 0; len := 0 |})
           (Reference.root_value 2)).
  - split; [discriminate | reflexivity].
  - discriminate.
  - reflexivity.
  - discriminate.
Defined.

(** ** Null handles *)

(** C6: with a null handle, Parse and each of the five extractions return -1
    and leave the world as it was: no engine call is recorded, no output
    location is written, whatever the engine is. *)
Theorem null_handle_returns_minus_one {E : Engine}
    (w : world) (op : extraction) (json n out_doc out_val : N) :
  simdjson_parse nullptr json n out_doc w = Normal (-1)%Z w ∧
  extract op nullptr out_val w = Normal (-1)%Z w.
Proof.
  split.
  - reflexivity.
  - apply extract_guard. reflexivity.
Qed.

(** ** Parse on well-formed input *)

(** C7, as the code has it: on a live parser and a non-null buffer and output
    location, when the engine parses the range successfully and the allocator
    can still give one object, Parse returns 0, has called the engine on
    exactly [(json, n)], and has written to [*out_doc] a fresh non-null handle
    to a Document whose record holds the caller's pointer and length
    themselves; the caller's bytes are as they were.  When the allocator has
    nothing left, Parse returns -1 and writes nothing. *)
Theorem parse_success_stores_buffer {E : Engine}
    (w : world) (parser_ptr json n out_doc : N)
    (impl : SimdJsonParserImpl) (res : simdjson_result ondemand_document)
    (p' : ondemand_parser) :
  live_parser w parser_ptr impl → json ≠ nullptr → out_doc ≠ nullptr →
  parse_into_document (parser impl) (bytes w) json n = (returns res, p') →
  error res = 0%Z →
  ∃ status w',
    simdjson_parse parser_ptr json n out_doc w = Normal status w' ∧
    calls w' = calls w ++ [called_parse_into_document (ctx_handle parser_ptr) json n] ∧
    bytes w' = bytes w ∧
    match avail w with
    | O => status = (-1)%Z ∧ out w' = out w ∧ dom (heap w') = dom (heap w)
    | S k =>
        status = 0%Z ∧
        ∃ doc,
          out w' = <[out_doc := cell_document doc]> (out w) ∧
          heap w !! doc = None ∧
          live_document w' doc {| stream := ondemand_document_stream_default;
                                  json_data := json; json_len := n |} ∧
          avail w' = k
    end.
Proof.
  intros Hp Hj Ho He H0.
  rewrite (parse_eq _ _ _ _ _ _ Hp Hj Ho), He. simpl.
  apply is_error_false in H0. rewrite H0.
  destruct Hp as [Hn Hl].
  destruct (avail w) as [|k].
  - do 2 eexists. split; [reflexivity|]. simpl. repeat split.
    apply dom_insert_lookup_L. rewrite Hl. eauto.
  - do 2 eexists. split; [reflexivity|]. simpl. repeat split.
    eexists. split; [reflexivity|].
    set (w1 := parsed parser_ptr json n p' w).
    split; [|split; [split|reflexivity]].
    + apply not_elem_of_dom.
      assert (dom (heap w1) = dom (heap w)) as Hd
        by (apply dom_insert_lookup_L; rewrite Hl; eauto).
      rewrite <- Hd. apply not_elem_of_dom, next_address_fresh.
    + apply next_address_not_null.
    + apply lookup_insert_eq.
Qed.

Lemma parse_success_stores_buffer_witness :
  ∃ w',
    simdjson_parse 16 Reference.buffer 2 100 (Reference.start 5 "42") = Normal 0%Z w' ∧
    ∃ doc, out w' = {[ 100 := cell_document doc ]} ∧
           heap w' !! doc = Some (ODocument (Reference.document 2)).
Proof.
  destruct (parse_success_stores_buffer
              (Reference.start 5 "42") 16 Reference.buffer 2 100
              Reference.parser0
              {| error := 0; value_unsafe := Reference.root_value 2 |}
              (2 : @ondemand_parser Reference.engine))
    as (status & w' & Hrun & _ & _ & Hs & doc & Hout & _ & [_ Hdoc] & _).
  - split; [discriminate | reflexivity].
  - discriminate.
  - discriminate.
  - reflexivity.
  - reflexivity.
  - exists w'. rewrite Hs in Hrun. split; [exact Hrun|].
    exists doc. split; [exact Hout | exact Hdoc].
Defined.

(** C7 as stated fails: the engine parses the two bytes [42] on a live parser,
    the allocator has nothing left, and Parse returns -1 with no output
    location written. *)
Lemma parse_success_without_memory :
  fst (parse_into_document (parser Reference.parser0)
         (bytes (Reference.start 0 "42")) Reference.buffer 2)
    = returns {| error := 0; value_unsafe := Reference.root_value 2 |} ∧
  result (simdjson_parse 16 Reference.buffer 2 100 (Reference.start 0 "42"))
    = Some (-1)%Z ∧
  (out <$> final (simdjson_parse 16 Reference.buffer 2 100 (Reference.start 0 "42")))
    = Some ∅.
Proof. repeat split; reflexivity. Qed.

(** ** Root element access: null *)

(** C8: on a null or live Document handle RootOf returns a handle and writes
    no output location; the handle is null exactly when the Document handle is
    null, the re-parse reports an error, or an exception occurs: the engine
    raises in the re-parse, [new] has no memory, or the conversion of the
    document into the Element's value raises.  The handle is all the caller
    gets. *)
Theorem root_null_exactly_on_failure {E : Engine} (w : world) (doc_ptr : N) :
  doc_ptr = nullptr ∨ (∃ d, live_document w doc_ptr d) →
  ∃ elem w',
    simdjson_document_root doc_ptr w = Normal elem w' ∧
    out w' = out w ∧
    (elem = nullptr ↔
     doc_ptr = nullptr ∨
     ∃ d, live_document w doc_ptr d ∧
          (reparse_reports_error w d ∨ reparse_raises w d ∨
           element_allocation_fails w d ∨ conversion_raises w d)).
Proof.
  intros [Hnull | [d Hl]].
  - subst doc_ptr. exists nullptr, w. repeat split; auto.
  - rewrite (root_eq _ _ _ Hl).
    assert (∀ d', live_document w doc_ptr d' → d' = d) as Hsame.
    { intros d' [_ Hl']. destruct Hl as [_ Hl]. congruence. }
    unfold reparse_reports_error, reparse_raises, element_allocation_fails,
      conversion_raises.
    destruct (fst (parse_into_document ondemand_parser_default (bytes w)
                     (json_data d) (json_len d))) as [res|] eqn:Hp; simpl.
    + destruct (is_error (error res)) eqn:He.
      * eexists _, _. split; [reflexivity|]. split; [reflexivity|].
        split; [|reflexivity]. intros _. right. exists d. split; [exact Hl|].
        left. exists res. split; [exact Hp|]. apply is_error_true, He.
      * apply is_error_false in He. destruct (avail w) as [|k] eqn:Ha.
        -- eexists _, _. split; [reflexivity|]. split; [reflexivity|].
           split; [|reflexivity]. intros _. right. exists d. split; [exact Hl|].
           right. right. left. exists res. auto.
        -- destruct (document_to_value (value_unsafe res)) as [root|] eqn:Hc.
           ++ eexists _, _. split; [reflexivity|]. split; [reflexivity|].
              split; [intros Hz; destruct (next_address_not_null _ Hz)|].
              intros [Hz | (d' & Hl' & Hfail)]; [destruct Hl; contradiction|].
              apply Hsame in Hl'. subst d'. rewrite Hp in Hfail.
              destruct Hfail
                as [(res' & [= <-] & Hne)
                   | [Hr | [(res' & _ & _ & Hz) | (res' & [= <-] & _ & _ & Hc')]]];
                [contradiction | discriminate | discriminate | congruence].
           ++ eexists _, _. split; [reflexivity|]. split; [reflexivity|].
              split; [|reflexivity]. intros _. right. exists d. split; [exact Hl|].
              right. right. right. exists res. repeat split; auto.
    + eexists _, _. split; [reflexivity|]. split; [reflexivity|].
      split; [|reflexivity]. intros _. right. exists d. split; [exact Hl|].
      right. left. exact Hp.
Qed.

Lemma root_null_exactly_on_failure_witness :
  ∃ elem w',
    simdjson_document_root 32
      (Reference.holding (ODocument (Reference.document 2)) (Reference.start 5 "4x"))
    = Normal elem w' ∧ out w' = ∅.
Proof.
  destruct (root_null_exactly_on_failure
              (Reference.holding (ODocument (Reference.document 2)) (Reference.start 5 "4x"))
              32)
    as (elem & w' & Hrun & Hout & _).
  - right. exists (Reference.document 2). split; [discriminate | reflexivity].
  - exists elem, w'. split; [exact Hrun | exact Hout].
Defined.

(** ** Type introspection *)

(** C9: on a null or live element handle each of IsObject, IsArray and IsNull
    returns 0 or 1 and writes no output location; it returns 1 exactly when
    the handle is live and the engine resolves the type without error to the
    queried one, so a null handle, a failed or raising resolution, and a
    different type all give 0.  With the reference engine, IsNull on the root
    of the four bytes [null] returns 1. *)
Theorem introspection_is_a_boolean :
  (∀ (E : Engine) (w : world) (op : introspection) (elem : N),
     elem = nullptr ∨ (∃ impl, live_element w elem impl) →
     ∃ b w',
       query op elem w = Normal b w' ∧
       (b = 0%Z ∨ b = 1%Z) ∧
       out w' = out w ∧
       (b = 1%Z ↔
        ∃ impl res v',
          live_element w elem impl ∧
          type (value impl) (bytes w) = (returns res, v') ∧
          error res = 0%Z ∧
          value_unsafe res = queried op)) ∧
  result (root_is_null (E := Reference.engine) 16 Reference.buffer 4
            (Reference.start 5 "null")) = Some 1%Z.
Proof.
  split; [|reflexivity].
  intros E w op elem [Hnull | [impl Hl]].
  - subst elem. exists 0%Z, w. split; [destruct op; reflexivity|].
    split; [auto|]. split; [reflexivity|].
    split; [discriminate|].
    intros (impl & _ & _ & [Hn _] & _). congruence.
  - rewrite (query_eq _ _ _ _ Hl).
    destruct (type (value impl) (bytes w)) as [[res|] v'] eqn:Ht; simpl.
    + destruct (is_error (error res)) eqn:He.
      * eexists _, _. split; [reflexivity|]. split; [auto|]. split; [reflexivity|].
        split; [discriminate|].
        intros (impl' & res' & v'' & [_ Hl'] & Ht' & He' & _).
        destruct Hl as [_ Hl]. rewrite Hl in Hl'. injection Hl' as <-.
        rewrite Ht in Ht'. injection Ht' as <- <-.
        apply is_error_true in He. contradiction.
      * apply is_error_false in He.
        destruct (json_type.eqb (value_unsafe res) (queried op)) eqn:Hq.
        -- eexists _, _. split; [reflexivity|]. split; [auto|]. split; [reflexivity|].
           split; [|reflexivity].
           intros _. exists impl, res, v'. apply json_type_eqb_eq in Hq. auto.
        -- eexists _, _. split; [reflexivity|]. split; [auto|]. split; [reflexivity|].
           split; [discriminate|].
           intros (impl' & res' & v'' & [_ Hl'] & Ht' & _ & Hq').
           destruct Hl as [_ Hl]. rewrite Hl in Hl'. injection Hl' as <-.
           rewrite Ht in Ht'. injection Ht' as <- <-.
           apply json_type_eqb_eq in Hq'. congruence.
    + eexists _, _. split; [reflexivity|]. split; [auto|]. split; [reflexivity|].
      split; [discriminate|].
      intros (impl' & res' & v'' & [_ Hl'] & Ht' & _).
      destruct Hl as [_ Hl]. rewrite Hl in Hl'. injection Hl' as <-.
      rewrite Ht in Ht'. discriminate.
Qed.

Lemma introspection_is_a_boolean_witness :
  ∃ b w',
    simdjson_element_is_null 32
      (Reference.holding (OElement (Reference.element 4)) (Reference.start 5 "null"))
    = Normal b w' ∧ (b = 0%Z ∨ b = 1%Z).
Proof.
  destruct (proj1 introspection_is_a_boolean Reference.engine
              (Reference.holding (OElement (Reference.element 4)) (Reference.start 5 "null"))
              IsNull 32)
    as (b & w' & Hrun & Hb & _).
  - right. exists (Reference.element 4). split; [discriminate | reflexivity].
  - exists b, w'. split; [exact Hrun | exact Hb].
Defined.

(** ** Null output pointers *)

(** C10: with a null output pointer each of the five extractions returns -1
    and leaves the world as it was, whatever the element handle is; so does
    Parse with a null buffer or a null [out_doc], whatever the parser handle
    is.  No engine call is recorded in either case. *)
Theorem null_output_pointer_returns_minus_one {E : Engine}
    (w : world) (op : extraction) (elem parser_ptr json n out_doc : N) :
  extract op elem nullptr w = Normal (-1)%Z w ∧
  simdjson_parse parser_ptr nullptr n out_doc w = Normal (-1)%Z w ∧
  simdjson_parse parser_ptr json n nullptr w = Normal (-1)%Z w.
Proof.
  repeat split.
  - apply extract_guard. rewrite is_null_nullptr. apply orb_true_r.
  - unfold simdjson_parse. rewrite is_null_nullptr, orb_true_r. reflexivity.
  - unfold simdjson_parse. rewrite is_null_nullptr, orb_true_r. reflexivity.
Qed.

(** * Effects and inversions

    What each primitive and each function may do to the world, and what a
    defined outcome says about the arguments. *)

Section Effects.
Context {E : Engine}.

Lemma effect_refl q w : effect q 0 w w.
Proof. repeat split. exists []. rewrite app_nil_r. split; [reflexivity | simpl; lia]. Qed.

Lemma effect_trans q k1 k2 w w1 w2 :
  effect q k1 w w1 → effect q k2 w1 w2 → effect q (k1 + k2) w w2.
Proof.
  intros (Hb1 & Ho1 & l1 & Hc1 & Hl1) (Hb2 & Ho2 & l2 & Hc2 & Hl2).
  split; [congruence|]. split; [congruence|].
  exists (l1 ++ l2). split.
  - rewrite Hc2, Hc1, app_assoc. reflexivity.
  - rewrite length_app. lia.
Qed.

Lemma effect_mono q k k' w w' : (k ≤ k')%nat → effect q k w w' → effect q k' w w'.
Proof. intros Hk (Hb & Ho & l & Hc & Hl). repeat split; auto. exists l. split; [auto | lia]. Qed.

Lemma confined_mono {A} q k k' (m : M A) : (k ≤ k')%nat → confined q k m → confined q k' m.
Proof.
  intros Hk Hm w. specialize (Hm w). destruct (final (m w)); [|exact I].
  eapply effect_mono; eauto.
Qed.

Lemma confined_ret {A} q (a : A) : confined q 0 (mret a : M A).
Proof. intros w. apply effect_refl. Qed.

Lemma confined_bind {A B} q k1 k2 (m : M A) (f : A → M B) :
  confined q k1 m → (∀ a, confined q k2 (f a)) → confined q (k1 + k2) (m ≫= f).
Proof.
  intros Hm Hf w. specialize (Hm w). unfold mbind, M_bind.
  destruct (m w) as [a w1|w1|]; simpl in *.
  - specialize (Hf a w1). destruct (final (f a w1)) as [w2|]; [|exact I].
    eapply effect_trans; eauto.
  - eapply effect_mono; [|exact Hm]. lia.
  - exact I.
Qed.

Lemma confined_try_catch {A} q k (body : M A) (a : A) :
  confined q k body → confined q k (try_catch body (mret a)).
Proof.
  intros Hb w. specialize (Hb w). unfold try_catch.
  destruct (body w) as [a' w1|w1|]; simpl in *; auto.
Qed.

Lemma confined_if {A} q k (b : bool) (m1 m2 : M A) :
  confined q k m1 → confined q k m2 → confined q k (if b then m1 else m2).
Proof. destruct b; auto. Qed.

Lemma confined_new q o : confined q 0 (new o).
Proof.
  intros w. unfold new. destruct (avail w); simpl; apply effect_refl || idtac.
  repeat split. exists []. rewrite app_nil_r. split; [reflexivity | simpl; lia].
Qed.

Lemma confined_delete q k p : confined q 0 (delete k p).
Proof.
  intros w. unfold delete. destruct (heap w !! p) as [o|]; [|exact I].
  destruct (k o); [|exact I]. simpl.
  repeat split. exists []. rewrite app_nil_r. split; [reflexivity | simpl; lia].
Qed.

Lemma confined_store q p c : p ≠ q → confined q 0 (store p c).
Proof.
  intros Hne w. simpl. split; [reflexivity|]. split; [apply lookup_insert_ne, Hne|].
  exists []. rewrite app_nil_r. split; [reflexivity | simpl; lia].
Qed.

Lemma confined_deref_document q p : confined q 0 (deref_document p).
Proof.
  intros w. unfold deref_document. destruct (heap w !! p) as [[| |]|]; simpl; auto.
  apply effect_refl.
Qed.

Lemma confined_set_json_data q p j : confined q 0 (set_json_data p j).
Proof.
  intros w. unfold set_json_data. destruct (heap w !! p) as [[| |]|]; simpl; auto.
  repeat split. exists []. rewrite app_nil_r. split; [reflexivity | simpl; lia].
Qed.

Lemma confined_set_json_len q p n : confined q 0 (set_json_len p n).
Proof.
  intros w. unfold set_json_len. destruct (heap w !! p) as [[| |]|]; simpl; auto.
  repeat split. exists []. rewrite app_nil_r. split; [reflexivity | simpl; lia].
Qed.

Lemma confined_set_value q p v : confined q 0 (set_value p v).
Proof.
  intros w. unfold set_value. destruct (heap w !! p) as [[| |]|]; simpl; auto.
  repeat split. exists []. rewrite app_nil_r. split; [reflexivity | simpl; lia].
Qed.

Lemma confined_convert_document q d : confined q 0 (convert_document d).
Proof.
  intros w. unfold convert_document.
  destruct (document_to_value d); simpl; apply effect_refl.
Qed.

Lemma effect_one_call q c w w' :
  bytes w' = bytes w → out w' = out w → calls w' = calls w ++ [c] → effect q 1 w w'.
Proof.
  intros Hb Ho Hc. split; [exact Hb|]. split; [rewrite Ho; reflexivity|].
  exists [c]. split; [exact Hc | simpl; lia].
Qed.

Lemma confined_handle_parse q p j n : confined q 1 (handle_parse_into_document p j n).
Proof.
  intros w. unfold handle_parse_into_document.
  destruct (heap w !! p) as [[impl| |]|]; simpl; auto.
  destruct (parse_into_document (parser impl) (bytes w) j n) as [[res|] p'];
    simpl; eapply effect_one_call; reflexivity.
Qed.

Lemma confined_local_parse q j n : confined q 1 (local_parse_into_document j n).
Proof.
  intros w. unfold local_parse_into_document.
  destruct (fst (parse_into_document ondemand_parser_default (bytes w) j n));
    simpl; eapply effect_one_call; reflexivity.
Qed.

Lemma confined_value_method {T} q p c
    (method : ondemand_value → memory → raised (simdjson_result T) * ondemand_value) :
  confined q 1 (value_method p c method).
Proof.
  intros w. unfold value_method.
  destruct (heap w !! p) as [[| |impl]|]; simpl; auto.
  destruct (method (value impl) (bytes w)) as [[res|] v'];
    simpl; eapply effect_one_call; reflexivity.
Qed.

End Effects.

Section ApiEffects.
Context {E : Engine}.

Lemma confined_return {A} q k (a : A) : confined q k (mret a : M A).
Proof. apply (confined_mono q 0); [lia | apply confined_ret]. Qed.

Lemma confined_bind_first {A B} q k (m : M A) (f : A → M B) :
  confined q k m → (∀ a, confined q 0 (f a)) → confined q k (m ≫= f).
Proof.
  intros Hm Hf. apply (confined_mono q (k + 0)); [lia|]. apply confined_bind; auto.
Qed.

Lemma confined_bind_rest {A B} q k (m : M A) (f : A → M B) :
  confined q 0 m → (∀ a, confined q k (f a)) → confined q k (m ≫= f).
Proof. intros Hm Hf. apply (confined_bind q 0 k); auto. Qed.

Ltac confine :=
  repeat first
    [ apply confined_return
    | apply confined_try_catch
    | apply confined_if
    | apply confined_new
    | apply confined_delete
    | apply confined_deref_document
    | apply confined_set_json_data
    | apply confined_set_json_len
    | apply confined_set_value
    | apply confined_convert_document
    | apply confined_store; assumption
    | apply confined_handle_parse
    | apply confined_local_parse
    | apply confined_value_method
    | apply confined_bind_first; [solve [confine] | intros ?]
    | apply confined_bind_rest; [solve [confine] | intros ?] ].

Lemma confined_create_parser q : confined q 0 simdjson_create_parser.
Proof. unfold simdjson_create_parser. confine. Qed.

Lemma confined_free q k p : confined q 0 (free k p).
Proof.
  destruct k; simpl;
    unfold simdjson_free_parser, simdjson_free_document, simdjson_free_element; confine.
Qed.

Lemma confined_parse q p json n out_doc :
  out_doc ≠ q → confined q 1 (simdjson_parse p json n out_doc).
Proof. intros Hq. unfold simdjson_parse. confine. Qed.

Lemma confined_root q d : confined q 1 (simdjson_document_root d).
Proof. unfold simdjson_document_root. confine. Qed.

Lemma confined_extract q op e out_val :
  out_val ≠ q → confined q 1 (extract op e out_val).
Proof.
  intros Hq. destruct op; simpl;
    unfold simdjson_element_get_string, simdjson_element_get_int64,
      simdjson_element_get_uint64, simdjson_element_get_double,
      simdjson_element_get_bool; confine.
Qed.

Lemma confined_query q op e : confined q 1 (query op e).
Proof.
  destruct op; simpl;
    unfold simdjson_element_is_object, simdjson_element_is_array,
      simdjson_element_is_null; confine.
Qed.

(** One call: the location [q] is safe unless it is the call's own target. *)
Lemma perform_effect q c w w' :
  target c ≠ Some q → perform c w = Some w' → effect q (engine_cost c) w w'.
Proof.
  intros Hq Hp.
  assert (∀ A (m : M A) k, confined q k m → final (m w) = Some w' → effect q k w w')
    as Huse by (intros A m k Hm Hf; specialize (Hm w); rewrite Hf in Hm; exact Hm).
  destruct c; simpl in *.
  - eapply Huse; [|exact Hp]; apply confined_create_parser.
  - eapply Huse; [|exact Hp]; apply (confined_free q KParser).
  - eapply Huse; [|exact Hp]; apply confined_parse; congruence.
  - eapply Huse; [|exact Hp]; apply (confined_free q KDocument).
  - eapply Huse; [|exact Hp]; apply confined_root.
  - eapply Huse; [|exact Hp]; apply (confined_free q KElement).
  - eapply Huse; [|exact Hp]; apply confined_extract; congruence.
  - eapply Huse; [|exact Hp]; apply confined_query.
Qed.

Lemma perform_all_effect q cs w w' :
  (∀ c, c ∈ cs → target c ≠ Some q) →
  perform_all cs w = Some w' →
  effect q (sum_list (engine_cost <$> cs)) w w'.
Proof.
  revert w. induction cs as [|c cs IH]; intros w Hq Hp; simpl in *.
  - injection Hp as <-. apply effect_refl.
  - destruct (perform c w) as [w1|] eqn:Hc; [|discriminate]. simpl in Hp.
    eapply effect_trans.
    + eapply perform_effect; [|exact Hc]. apply Hq. left.
    + apply IH; [|exact Hp]. intros c' Hin. apply Hq. right. exact Hin.
Qed.

End ApiEffects.

Section Inversions.
Context {E : Engine}.

Lemma null_or_not p : is_null p = true ∧ p = nullptr ∨ is_null p = false ∧ p ≠ nullptr.
Proof.
  unfold is_null, nullptr. destruct (N.eqb_spec p 0); [left | right]; auto.
Qed.

(** A call of Parse with a defined outcome was stopped by the guard or ran
    on a live parser. *)
Lemma parse_defined (p json n out_doc : N) w :
  simdjson_parse p json n out_doc w ≠ Undefined →
  simdjson_parse p json n out_doc w = Normal (-1)%Z w ∨
  ∃ impl, live_parser w p impl ∧ json ≠ nullptr ∧ out_doc ≠ nullptr.
Proof.
  intros Hd.
  destruct (null_or_not p) as [[Hp _]|[Hp Hp']];
    [left; unfold simdjson_parse; rewrite Hp; reflexivity|].
  destruct (null_or_not json) as [[Hj _]|[Hj Hj']];
    [left; unfold simdjson_parse; rewrite Hp, Hj; reflexivity|].
  destruct (null_or_not out_doc) as [[Ho _]|[Ho Ho']];
    [left; unfold simdjson_parse; rewrite Hp, Hj, Ho; reflexivity|].
  right. unfold simdjson_parse in Hd. rewrite Hp, Hj, Ho in Hd. simpl in Hd.
  unfold try_catch, mbind, M_bind, handle_parse_into_document in Hd. revert Hd.
  destruct (heap w !! p) as [[impl| |]|] eqn:Hl; intros Hd;
    try (destruct Hd; reflexivity).
  exists impl. repeat split; auto.
Qed.

Lemma root_defined (d : N) w :
  simdjson_document_root d w ≠ Undefined →
  d = nullptr ∨ ∃ dd, live_document w d dd.
Proof.
  intros Hd. destruct (null_or_not d) as [[_ Hn]|[Hn Hn']]; [left; exact Hn|].
  right. unfold simdjson_document_root in Hd. rewrite Hn in Hd.
  unfold try_catch, mbind, M_bind, deref_document in Hd. revert Hd.
  destruct (heap w !! d) as [[|dd|]|] eqn:Hl; intros Hd;
    try (destruct Hd; reflexivity).
  exists dd. split; auto.
Qed.

Lemma extract_defined op (e out_val : N) w :
  extract op e out_val w ≠ Undefined →
  extract op e out_val w = Normal (-1)%Z w ∨
  ∃ impl, live_element w e impl ∧ out_val ≠ nullptr.
Proof.
  intros Hd.
  destruct (null_or_not e) as [[He _]|[He He']];
    [left; apply extract_guard; rewrite He; reflexivity|].
  destruct (null_or_not out_val) as [[Ho _]|[Ho Ho']];
    [left; apply extract_guard; rewrite Ho; apply orb_true_r|].
  right.
  assert (heap w !! e = None ∨ (∃ o, heap w !! e = Some o ∧ is_element o = false) →
          extract op e out_val w = Undefined) as Hu.
  { intros Hcase. destruct op; simpl;
      unfold simdjson_element_get_string, simdjson_element_get_int64,
        simdjson_element_get_uint64, simdjson_element_get_double,
        simdjson_element_get_bool;
      rewrite He, Ho; simpl; unfold try_catch, mbind, M_bind, value_method;
      (destruct Hcase as [-> | (o & -> & Hk)]; [reflexivity|]);
      destruct o; try discriminate; reflexivity. }
  destruct (heap w !! e) as [[| |impl]|] eqn:Hl.
  - destruct Hd. apply Hu. right. eauto.
  - destruct Hd. apply Hu. right. eauto.
  - exists impl. repeat split; auto.
  - destruct Hd. apply Hu. left. reflexivity.
Qed.

Lemma query_null op w : query op nullptr w = Normal 0%Z w.
Proof. destruct op; reflexivity. Qed.

Lemma query_defined op (e : N) w :
  query op e w ≠ Undefined → e = nullptr ∨ ∃ impl, live_element w e impl.
Proof.
  intros Hd. destruct (null_or_not e) as [[_ Hn]|[He He']]; [left; exact Hn|].
  right.
  assert (heap w !! e = None ∨ (∃ o, heap w !! e = Some o ∧ is_element o = false) →
          query op e w = Undefined) as Hu.
  { intros Hcase. destruct op; simpl;
      unfold simdjson_element_is_object, simdjson_element_is_array,
        simdjson_element_is_null;
      rewrite He; unfold try_catch, mbind, M_bind, value_method;
      (destruct Hcase as [-> | (o & -> & Hk)]; [reflexivity|]);
      destruct o; try discriminate; reflexivity. }
  destruct (heap w !! e) as [[| |impl]|] eqn:Hl.
  - destruct Hd. apply Hu. right. eauto.
  - destruct Hd. apply Hu. right. eauto.
  - exists impl. repeat split; auto.
  - destruct Hd. apply Hu. left. reflexivity.
Qed.

Lemma free_null k w : free k nullptr w = Normal tt w.
Proof. destruct k; reflexivity. Qed.

Lemma free_eq k w (p : N) o :
  p ≠ nullptr → heap w !! p = Some o → has_kind k o = true →
  free k p w = Normal tt (with_heap (base.delete p (heap w)) w).
Proof.
  intros Hn Hl Hk.
  destruct k; simpl in *;
    unfold simdjson_free_parser, simdjson_free_document, simdjson_free_element;
    rewrite (not_null _ Hn); unfold delete; rewrite Hl, Hk; reflexivity.
Qed.

(** Parse returned 0: the parser was live, the engine parsed the range, and
    the world is the one with the new Document in it. *)
Lemma parse_ok_inv (p json n out_doc : N) w w1 :
  simdjson_parse p json n out_doc w = Normal 0%Z w1 →
  ∃ impl res p' k,
    live_parser w p impl ∧ json ≠ nullptr ∧ out_doc ≠ nullptr ∧
    parse_into_document (parser impl) (bytes w) json n = (returns res, p') ∧
    error res = 0%Z ∧ avail w = S k ∧
    let wp := parsed p json n p' w in
    let doc := next_address wp in
    w1 = with_out (<[out_doc := cell_document doc]> (out w))
           (with_avail k
              (with_heap (<[doc := ODocument {| stream := ondemand_document_stream_default;
                                                json_data := json; json_len := n |}]>
                            (heap wp)) wp)).
Proof.
  intros H.
  destruct (parse_defined p json n out_doc w) as [Hg | (impl & Hl & Hj & Ho)];
    [rewrite H; discriminate | rewrite Hg in H; discriminate |].
  rewrite (parse_eq _ _ _ _ _ _ Hl Hj Ho) in H.
  destruct (parse_into_document (parser impl) (bytes w) json n) as [[res|] p'] eqn:Hp;
    simpl in H; [|discriminate].
  destruct (is_error (error res)) eqn:He.
  - injection H as H0 _. apply is_error_true in He. contradiction.
  - destruct (avail w) as [|k] eqn:Ha; [discriminate|].
    injection H as <-. apply is_error_false in He.
    exists impl, res, p', k. destruct Hl as [Hn Hl]. repeat split; auto.
Qed.

(** Parse returned another status: nothing was written, nothing allocated. *)
Lemma parse_not_ok_inv (p json n out_doc : N) w st w1 :
  simdjson_parse p json n out_doc w = Normal st w1 → st ≠ 0%Z →
  out w1 = out w ∧ dom (heap w1) = dom (heap w) ∧ avail w1 = avail w.
Proof.
  intros H Hst.
  destruct (parse_defined p json n out_doc w) as [Hg | (impl & Hl & Hj & Ho)];
    [rewrite H; discriminate | rewrite Hg in H; injection H as <- <-; auto |].
  rewrite (parse_eq _ _ _ _ _ _ Hl Hj Ho) in H.
  assert (∀ p', dom (heap (parsed p json n p' w)) = dom (heap w)) as Hdom.
  { intros p'. simpl. destruct Hl as [_ Hl]. apply dom_insert_lookup_L. rewrite Hl. eauto. }
  destruct (parse_into_document (parser impl) (bytes w) json n) as [[res|] p'];
    simpl in H.
  - destruct (is_error (error res)).
    + injection H as <- <-. split; [reflexivity|]. split; [apply Hdom | reflexivity].
    + destruct (avail w) as [|k] eqn:Ha.
      * injection H as <- <-. split; [reflexivity|]. split; [apply Hdom | simpl; auto].
      * injection H as <- _. contradiction.
  - injection H as <- <-. split; [reflexivity|]. split; [apply Hdom | reflexivity].
Qed.

(** What RootOf returned and the world it left: null with the heap as it
    was, null with the Element that was made before the conversion raised, or
    a new Element with the root in it. *)
Lemma root_inv (d : N) w (e : N) w1 :
  simdjson_document_root d w = Normal e w1 →
  (e = nullptr ∧ heap w1 = heap w ∧ avail w1 = avail w ∧ bytes w1 = bytes w ∧
   ∀ dd, live_document w d dd → ¬ conversion_raises w dd) ∨
  (e = nullptr ∧
   ∃ dd, live_document w d dd ∧ conversion_raises w dd ∧
         heap w1 = <[next_address w := OElement {| value := ondemand_value_default |}]>
                     (heap w)) ∨
  (e ≠ nullptr ∧
   ∃ dd root k,
     live_document w d dd ∧
     fresh_reparse (bytes w) (json_data dd) (json_len dd) = Some root ∧
     avail w = S k ∧ e = next_address w ∧
     w1 = with_avail k
            (with_heap (<[e := OElement {| value := root |}]> (heap w))
               (reparsed (json_data dd) (json_len dd) w))).
Proof.
  intros H.
  destruct (root_defined d w) as [Hn | (dd & Hl)]; [rewrite H; discriminate | |].
  - subst d. injection H as <- <-. left. repeat split; auto.
    intros dd [Hc _]. destruct Hc. reflexivity.
  - assert (∀ dd', live_document w d dd' → dd' = dd) as Hsame.
    { intros dd' [_ Hl']. destruct Hl as [_ Hl]. congruence. }
    rewrite (root_eq _ _ _ Hl) in H. unfold fresh_reparse, fresh_document.
    destruct (parse_into_document ondemand_parser_default (bytes w)
                (json_data dd) (json_len dd)) as [[res|] p'] eqn:Hp; simpl in H.
    + destruct (is_error (error res)) eqn:He.
      * injection H as <- <-. left. repeat split; auto.
        intros dd' Hl' (res' & Hr & He' & _). apply Hsame in Hl'. subst dd'.
        rewrite Hp in Hr. injection Hr as <-. apply is_error_true in He. contradiction.
      * destruct (avail w) as [|k] eqn:Ha.
        -- injection H as <- <-. left. repeat split; auto.
           intros dd' _ (res' & _ & _ & Hk & _). contradiction.
        -- destruct (document_to_value (value_unsafe res)) as [root|] eqn:Hc.
           ++ injection H as <- <-. right. right.
              split; [apply next_address_not_null|].
              exists dd, root, k. rewrite Hp. simpl. rewrite He, Hc. auto.
           ++ injection H as <- <-. right. left. split; [reflexivity|].
              exists dd. split; [exact Hl|]. split; [|reflexivity].
              exists res. rewrite Hp. apply is_error_false in He. rewrite Ha. auto.
    + injection H as <- <-. left. repeat split; auto.
      intros dd' Hl' (res' & Hr & _). apply Hsame in Hl'. subst dd'.
      rewrite Hp in Hr. discriminate.
Qed.

End Inversions.

(** * Further properties of the interface *)

(** ** Parser lifecycle *)

(** X1: CreateParser either finds the allocator empty, returns null and
    leaves the world as it was, or returns a non-null address that held
    nothing, now a live Parser in its default state, with every other object,
    the caller's bytes, the output locations and the engine log untouched. *)
Theorem create_parser_gives_a_fresh_parser {E : Engine} (w : world) :
  match avail w with
  | O => simdjson_create_parser w = Normal nullptr w
  | S k =>
      ∃ p w',
        simdjson_create_parser w = Normal p w' ∧
        heap w !! p = None ∧
        live_parser w' p {| parser := ondemand_parser_default |} ∧
        (∀ a, a ≠ p → heap w' !! a = heap w !! a) ∧
        bytes w' = bytes w ∧ out w' = out w ∧ calls w' = calls w ∧ avail w' = k
  end.
Proof.
  rewrite create_parser_eq. destruct (avail w) as [|k]; [reflexivity|].
  eexists _, _. split; [reflexivity|]. simpl.
  split; [apply next_address_fresh|].
  split; [split; [apply next_address_not_null | apply lookup_insert_eq]|].
  split; [|auto]. intros a Ha. apply lookup_insert_ne. congruence.
Qed.

(** X2: each of FreeParser, FreeDocument and FreeElement does nothing on a
    null handle; on a live handle of its kind it removes that object and
    nothing else: the handle is no longer live, every other object, the
    caller's bytes, the output locations, the engine log and the allocator are
    as before. *)
Theorem free_removes_only_its_object {E : Engine}
    (k : handle_kind) (w : world) (p : N) (o : object) :
  p ≠ nullptr → heap w !! p = Some o → has_kind k o = true →
  free k nullptr w = Normal tt w ∧
  ∃ w',
    free k p w = Normal tt w' ∧
    heap w' !! p = None ∧
    (∀ a, a ≠ p → heap w' !! a = heap w !! a) ∧
    bytes w' = bytes w ∧ out w' = out w ∧ calls w' = calls w ∧ avail w' = avail w.
Proof.
  intros Hn Hl Hk. split; [apply free_null|].
  rewrite (free_eq _ _ _ _ Hn Hl Hk). eexists. split; [reflexivity|]. simpl.
  split; [apply lookup_delete_eq|].
  split; [|auto]. intros a Ha. apply lookup_delete_ne. congruence.
Qed.

Lemma free_removes_only_its_object_witness :
  ∃ w',
    simdjson_free_document 32
      (Reference.holding (ODocument (Reference.document 2)) (Reference.start 5 "42"))
    = Normal tt w' ∧
    heap w' !! 32 = None.
Proof.
  destruct (free_removes_only_its_object KDocument
              (Reference.holding (ODocument (Reference.document 2)) (Reference.start 5 "42"))
              32 (ODocument (Reference.document 2)))
    as (_ & w' & Hrun & Hgone & _).
  - discriminate.
  - reflexivity.
  - reflexivity.
  - exists w'. split; [exact Hrun | exact Hgone].
Defined.

(** X3: CreateParser followed by FreeParser on the handle it returned always
    returns, and leaves the heap, the caller's bytes, the output locations and
    the engine log exactly as they were, whether or not the allocation
    succeeded. *)
Theorem create_then_free_restores_the_heap {E : Engine} (w : world) :
  ∃ w',
    create_then_free w = Normal tt w' ∧
    heap w' = heap w ∧ bytes w' = bytes w ∧ out w' = out w ∧ calls w' = calls w.
Proof.
  unfold create_then_free, mbind, M_bind. rewrite create_parser_eq.
  destruct (avail w) as [|k].
  - exists w. auto.
  - simpl.
    set (w1 := with_avail k _).
    assert (heap w1 !! next_address w =
              Some (OParser {| parser := ondemand_parser_default |})) as Hl
      by apply lookup_insert_eq.
    change (simdjson_free_parser (next_address w) w1) with (free KParser (next_address w) w1).
    rewrite (free_eq KParser _ _ _ (next_address_not_null w) Hl eq_refl).
    eexists. split; [reflexivity|]. simpl.
    split; [|auto]. apply delete_insert_id, next_address_fresh.
Qed.

(** ** Releasing what Parse and RootOf made *)

(** X4: when Parse returned 0, FreeDocument on the handle it wrote returns
    and the heap holds the same addresses as before Parse; every object but
    the Parser is as it was and the caller's bytes are unchanged. *)
Theorem parse_then_free_document_leaks_nothing {E : Engine}
    (w w1 : world) (p json n out_doc : N) :
  simdjson_parse p json n out_doc w = Normal 0%Z w1 →
  ∃ doc w2,
    out w1 !! out_doc = Some (cell_document doc) ∧
    simdjson_free_document doc w1 = Normal tt w2 ∧
    dom (heap w2) = dom (heap w) ∧
    (∀ a, a ≠ p → heap w2 !! a = heap w !! a) ∧
    bytes w2 = bytes w.
Proof.
  intros H.
  destruct (parse_ok_inv _ _ _ _ _ _ H)
    as (impl & res & p' & k & [Hn Hl] & Hj & Ho & He & H0 & Ha & Hw1).
  simpl in Hw1.
  set (wp := parsed p json n p' w) in *. set (doc := next_address wp) in *.
  assert (heap w1 !! doc =
            Some (ODocument {| stream := ondemand_document_stream_default;
                               json_data := json; json_len := n |})) as Hd
    by (rewrite Hw1; apply lookup_insert_eq).
  pose proof (free_eq KDocument _ _ _ (next_address_not_null wp) Hd eq_refl) as Hfree.
  exists doc. eexists. split; [rewrite Hw1; apply lookup_insert_eq|].
  split; [exact Hfree|]. rewrite Hw1. simpl.
  rewrite (delete_insert_id _ _ _ (next_address_fresh wp)).
  split; [apply dom_insert_lookup_L; rewrite Hl; eauto|].
  split; [|reflexivity]. intros a Hap. apply lookup_insert_ne. congruence.
Qed.

Lemma parse_then_free_document_leaks_nothing_witness :
  ∃ doc w1 w2,
    simdjson_parse 16 Reference.buffer 2 100 (Reference.start 5 "42") = Normal 0%Z w1 ∧
    simdjson_free_document doc w1 = Normal tt w2 ∧
    dom (heap w2) = dom (heap (Reference.start 5 "42")).
Proof.
  evar (w1 : @world Reference.engine).
  assert (simdjson_parse 16 Reference.buffer 2 100 (Reference.start 5 "42")
          = Normal 0%Z w1) as Hrun by (unfold w1; reflexivity).
  destruct (parse_then_free_document_leaks_nothing _ _ _ _ _ _ Hrun)
    as (doc & w2 & _ & Hfree & Hdom & _).
  exists doc, w1, w2. split; [exact Hrun|]. split; [exact Hfree | exact Hdom].
Defined.

(** X5: FreeElement on whatever RootOf returned, null or not, returns.
    Afterwards the heap is exactly as it was before RootOf, with one
    exception: when the conversion of the document into the Element's value
    raised, RootOf returned null and the Element it had already made, at an
    address that held nothing before, is still in the heap with no handle to
    it. *)
Theorem root_then_free_element_heap {E : Engine}
    (w w1 : world) (d e : N) :
  simdjson_document_root d w = Normal e w1 →
  ∃ w2,
    simdjson_free_element e w1 = Normal tt w2 ∧
    ((heap w2 = heap w ∧ ∀ dd, live_document w d dd → ¬ conversion_raises w dd) ∨
     (e = nullptr ∧
      ∃ dd, live_document w d dd ∧ conversion_raises w dd ∧
            heap w !! next_address w = None ∧
            heap w2 = <[next_address w := OElement {| value := ondemand_value_default |}]>
                        (heap w))).
Proof.
  intros H.
  destruct (root_inv _ _ _ _ H)
    as [(-> & Hh & _ & _ & Hno)
       | [(-> & dd & Hl & Hc & Hh)
         | (Hne & dd & root & k & Hl & Hr & Ha & He & Hw1)]].
  - exists w1. split; [reflexivity|]. left. split; [exact Hh | exact Hno].
  - exists w1. split; [reflexivity|]. right. split; [reflexivity|].
    exists dd. split; [exact Hl|]. split; [exact Hc|].
    split; [apply next_address_fresh | exact Hh].
  - assert (heap w1 !! e = Some (OElement {| value := root |})) as Hle
      by (rewrite Hw1; apply lookup_insert_eq).
    change (simdjson_free_element e w1) with (free KElement e w1).
    rewrite (free_eq KElement _ _ _ Hne Hle eq_refl).
    eexists. split; [reflexivity|]. left. split.
    + rewrite Hw1. simpl. apply delete_insert_id. rewrite He. apply next_address_fresh.
    + intros dd' [_ Hl'] (res & Hp & He' & _ & Hc).
      assert (dd' = dd) as -> by (destruct Hl as [_ Hl]; congruence).
      unfold fresh_reparse, fresh_document in Hr.
      destruct (parse_into_document ondemand_parser_default (bytes w)
                  (json_data dd) (json_len dd)) as [r p']; simpl in Hp. subst r.
      apply is_error_false in He'. rewrite He', Hc in Hr. discriminate.
Qed.

Lemma root_then_free_element_heap_witness :
  let w := Reference.holding (ODocument (Reference.document 2)) (Reference.start 5 "42") in
  ∃ e w1 w2,
    simdjson_document_root 32 w = Normal e w1 ∧
    simdjson_free_element e w1 = Normal tt w2 ∧ heap w2 = heap w.
Proof.
  intros w.
  evar (w1 : @world Reference.engine). evar (e : N).
  assert (simdjson_document_root 32 w = Normal e w1) as Hrun
    by (unfold w1, e; reflexivity).
  destruct (root_then_free_element_heap _ _ _ _ Hrun)
    as (w2 & Hfree & [[Hh _] | (_ & dd & _ & (res & _ & _ & _ & Hc) & _)]);
    [|discriminate Hc].
  exists e, w1, w2. split; [exact Hrun|]. split; [exact Hfree | exact Hh].
Defined.

(** ** What no sequence of calls does *)

(** X7: an output location that no call of a sequence was given holds at the
    end what it held at the start: Parse writes through [out_doc] only, an
    extraction through its output pointer only, and the other functions write
    no output location at all. *)
Theorem calls_write_only_their_targets {E : Engine}
    (cs : list api_call) (w w' : world) (q : N) :
  (∀ c, c ∈ cs → target c ≠ Some q) →
  perform_all cs w = Some w' →
  out w' !! q = out w !! q.
Proof. intros Hq Hp. apply (perform_all_effect q cs w w' Hq Hp). Qed.

Lemma calls_write_only_their_targets_witness :
  ∃ w',
    perform_all [Parse 16 Reference.buffer 2 100; RootOf 17; Extract GetInt64 18 200]
      (Reference.start 5 "42") = Some w' ∧
    out w' !! 300 = None.
Proof.
  let r := eval vm_compute in
        (perform_all [Parse 16 Reference.buffer 2 100; RootOf 17; Extract GetInt64 18 200]
                  (Reference.start 5 "42")) in
  match r with Some ?x => pose (w' := x) end.
  assert (perform_all [Parse 16 Reference.buffer 2 100; RootOf 17; Extract GetInt64 18 200]
            (Reference.start 5 "42") = Some w') as Hrun by reflexivity.
  exists w'. split; [exact Hrun|].
  assert (∀ c, c ∈ [Parse 16 Reference.buffer 2 100; RootOf 17; Extract GetInt64 18 200] →
               target c ≠ Some 300) as Hq.
  { intros c Hc. repeat (apply elem_of_cons in Hc as [-> | Hc]; [discriminate|]).
    apply elem_of_nil in Hc. destruct Hc. }
  rewrite (calls_write_only_their_targets _ _ _ 300 Hq Hrun). reflexivity.
Defined.



(** ** What a status tells the caller *)

(** X9: whatever status Parse returns, the caller can rely on it alone.
    Status 0 means [*out_doc] now holds a handle to a live Document of exactly
    [(json, n)] at an address that held nothing before; any other status
    means no output location was written and nothing was allocated. *)
Theorem parse_status_tells_whether_a_document_exists {E : Engine}
    (w w' : world) (p json n out_doc : N) (st : Z) :
  simdjson_parse p json n out_doc w = Normal st w' →
  (st = 0%Z →
   ∃ doc,
     out w' = <[out_doc := cell_document doc]> (out w) ∧
     heap w !! doc = None ∧
     live_document w' doc {| stream := ondemand_document_stream_default;
                             json_data := json; json_len := n |}) ∧
  (st ≠ 0%Z →
   out w' = out w ∧ dom (heap w') = dom (heap w) ∧ avail w' = avail w).
Proof.
  intros H. split.
  - intros ->.
    destruct (parse_ok_inv _ _ _ _ _ _ H)
      as (impl & res & p' & k & [Hn Hl] & Hj & Ho & He & H0 & Ha & Hw1).
    simpl in Hw1. set (wp := parsed p json n p' w) in *.
    exists (next_address wp). rewrite Hw1. simpl.
    split; [reflexivity|]. split.
    + apply not_elem_of_dom.
      assert (dom (heap wp) = dom (heap w)) as Hd
        by (apply dom_insert_lookup_L; rewrite Hl; eauto).
      rewrite <- Hd. apply not_elem_of_dom, next_address_fresh.
    + split; [apply next_address_not_null | apply lookup_insert_eq].
  - intros Hst. apply (parse_not_ok_inv _ _ _ _ _ _ _ H Hst).
Qed.

Lemma parse_status_tells_whether_a_document_exists_witness :
  ∃ w', simdjson_parse 16 Reference.buffer 2 100 (Reference.start 5 "4x")
        = Normal Reference.TAPE_ERROR w' ∧
        out w' = ∅ ∧ avail w' = 5%nat.
Proof.
  evar (w' : @world Reference.engine).
  assert (simdjson_parse 16 Reference.buffer 2 100 (Reference.start 5 "4x")
          = Normal Reference.TAPE_ERROR w') as Hrun by (unfold w'; reflexivity).
  destruct (parse_status_tells_whether_a_document_exists _ _ _ _ _ _ _ Hrun)
    as [_ Hfail].
  destruct Hfail as (Hout & _ & Hav); [discriminate|].
  exists w'. split; [exact Hrun|]. split; [exact Hout | exact Hav].
Defined.

(** X10: whatever status an extraction returns, status 0 means the output
    location was written, with a datum of the type asked for (a boolean is 0
    or 1), and any other status means no output location was written; in
    either case nothing was allocated or released. *)
Theorem extraction_status_tells_whether_output_was_written {E : Engine}
    (w w' : world) (op : extraction) (e out_val : N) (st : Z) :
  extract op e out_val w = Normal st w' →
  (st = 0%Z →
   out_val ≠ nullptr ∧
   ∃ c, out w' = <[out_val := c]> (out w) ∧ cell_fits op c) ∧
  (st ≠ 0%Z → out w' = out w) ∧
  dom (heap w') = dom (heap w) ∧ avail w' = avail w.
Proof.
  intros H.
  destruct (extract_defined op e out_val w) as [Hg | (impl & Hl & Ho)];
    [rewrite H; discriminate | |].
  - rewrite Hg in H. injection H as <- <-.
    split; [discriminate|]. auto.
  - rewrite (extract_eq _ _ _ _ _ Hl Ho) in H.
    assert (∀ c v', dom (heap (accessed e c v' w)) = dom (heap w)) as Hdom.
    { intros c v'. simpl. destruct Hl as [_ Hl]. apply dom_insert_lookup_L.
      rewrite Hl. eauto. }
    assert (∀ c code v',
              engine_extract op (value impl) (bytes w) = (returns (code, c), v') →
              cell_fits op c) as Hfits.
    { intros c code v'. unfold engine_extract, answer.
      destruct op; simpl;
        match goal with |- context [?f (value impl) (bytes w)] =>
          destruct (f (value impl) (bytes w)) as [[res|] v0] end;
        simpl; intros [= _ <- _]; eauto.
      destruct (value_unsafe res); auto. }
    destruct (engine_extract op (value impl) (bytes w)) as [[[code c]|] v'] eqn:He;
      simpl in H.
    + destruct (is_error code) eqn:Hc.
      * injection H as <- <-. apply is_error_true in Hc.
        split; [intros; contradiction|]. split; [reflexivity|].
        split; [apply Hdom | reflexivity].
      * injection H as <- <-.
        split; [|split; [intros Hne; destruct Hne; reflexivity|
                         split; [apply Hdom | reflexivity]]].
        intros _. split; [exact Ho|]. exists c. split; [reflexivity|].
        eapply Hfits. reflexivity.
    + injection H as <- <-.
      split; [discriminate|]. split; [reflexivity|].
      split; [apply Hdom | reflexivity].
Qed.

Lemma extraction_status_tells_whether_output_was_written_witness :
  ∃ w',
    simdjson_element_get_bool 32 200
      (Reference.holding (OElement (Reference.element 4)) (Reference.start 5 "true"))
    = Normal 0%Z w' ∧
    ∃ c, out w' = {[ 200 := c ]} ∧ (c = cell_int 0 ∨ c = cell_int 1).
Proof.
  evar (w' : @world Reference.engine).
  assert (extract GetBool 32 200
            (Reference.holding (OElement (Reference.element 4)) (Reference.start 5 "true"))
          = Normal 0%Z w') as Hrun by (unfold w'; reflexivity).
  destruct (extraction_status_tells_whether_output_was_written _ _ _ _ _ _ Hrun)
    as [Hok _].
  destruct (Hok eq_refl) as (_ & c & Hout & Hfit).
  exists w'. split; [exact Hrun|]. exists c. split; [exact Hout | exact Hfit].
Defined.

(** X11: when one of IsObject, IsArray and IsNull answers 1 for an element,
    each of the other two answers 0 for that element in the same world. *)
Theorem introspections_exclude_each_other {E : Engine}
    (w w1 : world) (op1 op2 : introspection) (e : N) :
  query op1 e w = Normal 1%Z w1 →
  op2 ≠ op1 →
  ∃ w2, query op2 e w = Normal 0%Z w2.
Proof.
  intros H1 Hne.
  destruct (query_defined op1 e w) as [-> | (impl & Hl)]; [rewrite H1; discriminate | |].
  - rewrite query_null in H1. discriminate.
  - rewrite (query_eq op1 _ _ _ Hl) in H1. rewrite (query_eq op2 _ _ _ Hl).
    destruct (type (value impl) (bytes w)) as [[res|] v']; simpl in *; [|discriminate].
    destruct (is_error (error res)); [discriminate|].
    destruct (json_type.eqb (value_unsafe res) (queried op1)) eqn:Hq1; [|discriminate].
    destruct (json_type.eqb (value_unsafe res) (queried op2)) eqn:Hq2; [|eauto].
    apply json_type_eqb_eq in Hq1, Hq2.
    destruct Hne. destruct op1, op2; simpl in *; congruence.
Qed.

Lemma introspections_exclude_each_other_witness :
  ∃ w2,
    simdjson_element_is_object 32
      (Reference.holding (OElement (Reference.element 4)) (Reference.start 5 "null"))
    = Normal 0%Z w2.
Proof.
  evar (w1 : @world Reference.engine).
  assert (query IsNull 32
            (Reference.holding (OElement (Reference.element 4)) (Reference.start 5 "null"))
          = Normal 1%Z w1) as Hrun by (unfold w1; reflexivity).
  apply (introspections_exclude_each_other _ _ IsNull IsObject _ Hrun).
  discriminate.
Defined.

(** ** How the handles depend on each other *)

(** X12: a Parser can be used again.  When two Parse calls on the same
    parser both return 0, the two Document handles differ, and after the
    second call both Documents are live, each holding the pointer and length
    of its own call. *)
Theorem parser_reuse_keeps_earlier_documents {E : Engine}
    (w w1 w2 : world) (p json1 n1 out1 json2 n2 out2 : N) :
  simdjson_parse p json1 n1 out1 w = Normal 0%Z w1 →
  simdjson_parse p json2 n2 out2 w1 = Normal 0%Z w2 →
  ∃ doc1 doc2,
    out w1 !! out1 = Some (cell_document doc1) ∧
    out w2 !! out2 = Some (cell_document doc2) ∧
    doc1 ≠ doc2 ∧
    live_document w2 doc1 {| stream := ondemand_document_stream_default;
                             json_data := json1; json_len := n1 |} ∧
    live_document w2 doc2 {| stream := ondemand_document_stream_default;
                             json_data := json2; json_len := n2 |}.
Proof.
  intros H1 H2.
  destruct (parse_ok_inv _ _ _ _ _ _ H1)
    as (impl1 & res1 & p1 & k1 & [Hn Hl1] & _ & _ & _ & _ & _ & Hw1).
  destruct (parse_ok_inv _ _ _ _ _ _ H2)
    as (impl2 & res2 & p2 & k2 & [_ Hl2] & _ & _ & _ & _ & _ & Hw2).
  simpl in Hw1, Hw2.
  set (wp1 := parsed p json1 n1 p1 w) in *. set (doc1 := next_address wp1) in *.
  set (wp2 := parsed p json2 n2 p2 w1) in *. set (doc2 := next_address wp2) in *.
  assert (heap w1 !! doc1 =
            Some (ODocument {| stream := ondemand_document_stream_default;
                               json_data := json1; json_len := n1 |})) as Hd1
    by (rewrite Hw1; apply lookup_insert_eq).
  assert (doc1 ≠ p) as Hp1.
  { intros Heq. rewrite Heq, Hl2 in Hd1. discriminate. }
  assert (heap wp2 !! doc1 =
            Some (ODocument {| stream := ondemand_document_stream_default;
                               json_data := json1; json_len := n1 |})) as Hd1'
    by (simpl; rewrite lookup_insert_ne by congruence; exact Hd1).
  assert (doc1 ≠ doc2) as Hne.
  { intros Heq. pose proof (next_address_fresh wp2) as Hf. fold doc2 in Hf.
    rewrite <- Heq, Hd1' in Hf. discriminate. }
  exists doc1, doc2.
  split; [rewrite Hw1; apply lookup_insert_eq|].
  split; [rewrite Hw2; apply lookup_insert_eq|].
  split; [exact Hne|]. rewrite Hw2. split.
  - split; [apply next_address_not_null|]. simpl.
    rewrite lookup_insert_ne by congruence. exact Hd1'.
  - split; [apply next_address_not_null | apply lookup_insert_eq].
Qed.

Lemma parser_reuse_keeps_earlier_documents_witness :
  ∃ w1 w2 doc1 doc2,
    simdjson_parse 16 Reference.buffer 2 100 (Reference.start 5 "42")
    = Normal 0%Z w1 ∧
    simdjson_parse 16 Reference.buffer 1 104 w1 = Normal 0%Z w2 ∧
    doc1 ≠ doc2 ∧
    live_document w2 doc1 (Reference.document 2) ∧
    live_document w2 doc2 (Reference.document 1).
Proof.
  evar (w1 : @world Reference.engine). evar (w2 : @world Reference.engine).
  assert (simdjson_parse 16 Reference.buffer 2 100 (Reference.start 5 "42")
          = Normal 0%Z w1) as Hrun1 by (unfold w1; reflexivity).
  assert (simdjson_parse 16 Reference.buffer 1 104 w1 = Normal 0%Z w2) as Hrun2
    by (unfold w2; reflexivity).
  destruct (parser_reuse_keeps_earlier_documents _ _ _ _ _ _ _ _ _ _ Hrun1 Hrun2)
    as (doc1 & doc2 & _ & _ & Hne & Hd1 & Hd2).
  exists w1, w2, doc1, doc2. auto.
Defined.

(** X13: RootOf can be called again on the same Document.  When two calls in
    a row both return an element, the two handles differ and both elements
    are live with the same value: each call re-parses the same bytes. *)
Theorem root_twice_gives_two_equal_elements {E : Engine}
    (w w1 w2 : world) (d e1 e2 : N) :
  simdjson_document_root d w = Normal e1 w1 → e1 ≠ nullptr →
  simdjson_document_root d w1 = Normal e2 w2 → e2 ≠ nullptr →
  e1 ≠ e2 ∧
  ∃ impl, live_element w2 e1 impl ∧ live_element w2 e2 impl.
Proof.
  intros H1 Hn1 H2 Hn2.
  destruct (root_inv _ _ _ _ H1)
    as [(Hz & _) | [(Hz & _) | (_ & dd & root & k & [Hdn Hl] & Hr & Ha & He1 & Hw1)]];
    [contradiction | contradiction |].
  assert (heap w !! e1 = None) as Hf1 by (rewrite He1; apply next_address_fresh).
  assert (d ≠ e1) as Hde by (intros Heq; rewrite Heq, Hf1 in Hl; discriminate).
  assert (heap w1 !! e1 = Some (OElement {| value := root |})) as Hle1
    by (rewrite Hw1; apply lookup_insert_eq).
  assert (bytes w1 = bytes w) as Hb by (rewrite Hw1; reflexivity).
  destruct (root_inv _ _ _ _ H2)
    as [(Hz & _) | [(Hz & _) | (_ & dd' & root' & k' & [_ Hl'] & Hr' & Ha' & He2 & Hw2)]];
    [contradiction | contradiction |].
  assert (dd' = dd) as ->.
  { rewrite Hw1 in Hl'. simpl in Hl'. rewrite lookup_insert_ne in Hl' by congruence.
    congruence. }
  assert (root' = root) as -> by (rewrite Hb in Hr'; congruence).
  assert (e1 ≠ e2) as Hne.
  { intros Heq. pose proof (next_address_fresh w1) as Hf. rewrite <- He2, <- Heq, Hle1 in Hf.
    discriminate. }
  split; [exact Hne|]. exists {| value := root |}. rewrite Hw2. split.
  - split; [exact Hn1|]. simpl. rewrite lookup_insert_ne by congruence. exact Hle1.
  - split; [exact Hn2 | apply lookup_insert_eq].
Qed.

Lemma root_twice_gives_two_equal_elements_witness :
  let w := Reference.holding (ODocument (Reference.document 2)) (Reference.start 5 "42") in
  ∃ e1 w1 e2 w2,
    simdjson_document_root 32 w = Normal e1 w1 ∧
    simdjson_document_root 32 w1 = Normal e2 w2 ∧
    ∃ impl, live_element w2 e1 impl ∧ live_element w2 e2 impl.
Proof.
  intros w.
  evar (w1 : @world Reference.engine). evar (e1 : N).
  evar (w2 : @world Reference.engine). evar (e2 : N).
  assert (simdjson_document_root 32 w = Normal e1 w1) as Hrun1
    by (unfold w1, e1; reflexivity).
  assert (simdjson_document_root 32 w1 = Normal e2 w2) as Hrun2
    by (unfold w2, e2; reflexivity).
  destruct (root_twice_gives_two_equal_elements _ _ _ _ _ _ Hrun1 ltac:(discriminate)
              Hrun2 ltac:(discriminate)) as (_ & impl & Hl1 & Hl2).
  exists e1, w1, e2, w2. split; [exact Hrun1|]. split; [exact Hrun2|].
  exists impl. auto.
Defined.

(** X15: a Document does not depend on its Parser.  After the Parser has been
    freed, RootOf on a Document returns null in exactly the cases in which it
    would have returned null before, and otherwise an element with the same
    value. *)
Theorem root_works_after_the_parser_is_freed {E : Engine}
    (w w' : world) (p d e : N) (impl : SimdJsonParserImpl) (dd : SimdJsonDocumentImpl) :
  live_parser w p impl → live_document w d dd →
  simdjson_document_root d w = Normal e w' →
  ∃ w1 e1 w1',
    simdjson_free_parser p w = Normal tt w1 ∧
    simdjson_document_root d w1 = Normal e1 w1' ∧
    (e1 = nullptr ↔ e = nullptr) ∧
    (e ≠ nullptr → heap w1' !! e1 = heap w' !! e).
Proof.
  intros [Hpn Hp] [Hdn Hd] H.
  pose proof (free_eq KParser _ _ _ Hpn Hp eq_refl) as Hfree. simpl in Hfree.
  rewrite Hfree. eexists. set (w1 := with_heap _ w).
  assert (live_document w1 d dd) as Hd1.
  { split; [exact Hdn|]. simpl. rewrite lookup_delete_ne; [exact Hd|].
    intros Heq. rewrite Heq, Hd in Hp. discriminate. }
  rewrite (root_eq _ _ _ (conj Hdn Hd)) in H. rewrite (root_eq _ _ _ Hd1).
  change (bytes w1) with (bytes w). change (avail w1) with (avail w).
  destruct (fst (parse_into_document ondemand_parser_default (bytes w)
                   (json_data dd) (json_len dd))) as [res|]; simpl in *.
  - destruct (is_error (error res)).
    + injection H as <- <-. eexists _, _. repeat split; auto. intros Hc. destruct Hc.
      reflexivity.
    + destruct (avail w) as [|k].
      * injection H as <- <-. eexists _, _. repeat split; auto. intros Hc. destruct Hc.
        reflexivity.
      * destruct (document_to_value (value_unsafe res)) as [root|].
        -- injection H as <- <-. eexists _, _. split; [reflexivity|].
           split; [reflexivity|]. split.
           ++ split; intros Hz; [destruct (next_address_not_null _ Hz)
                                | destruct (next_address_not_null _ Hz)].
           ++ intros _. simpl. rewrite !lookup_insert_eq. reflexivity.
        -- injection H as <- <-. eexists _, _. repeat split; auto.
           intros Hc. destruct Hc. reflexivity.
  - injection H as <- <-. eexists _, _. repeat split; auto. intros Hc. destruct Hc.
    reflexivity.
Qed.

Lemma root_works_after_the_parser_is_freed_witness :
  let w := Reference.holding (ODocument (Reference.document 2)) (Reference.start 5 "42") in
  ∃ w1 e1 w1',
    simdjson_free_parser 16 w = Normal tt w1 ∧
    simdjson_document_root 32 w1 = Normal e1 w1' ∧
    e1 ≠ nullptr.
Proof.
  intros w.
  evar (w' : @world Reference.engine). evar (e : N).
  assert (simdjson_document_root 32 w = Normal e w') as Hrun
    by (unfold w', e; reflexivity).
  destruct (root_works_after_the_parser_is_freed w w' 16 32 e
              Reference.parser0 (Reference.document 2))
    as (w1 & e1 & w1' & Hfree & Hroot & Hiff & _).
  - split; [discriminate | reflexivity].
  - split; [discriminate | reflexivity].
  - exact Hrun.
  - exists w1, e1, w1'. split; [exact Hfree|]. split; [exact Hroot|].
    intros Hz. apply Hiff in Hz. discriminate Hz.
Defined.
